(** * Maze search visualiser: trace reconstruction and playback

    A shallow embedding of [1st assignment/static/js/index.js]:
    [generateAlgorithmSteps] rebuilds, from the solver's explored order
    and path, the narration lines and the frontier snapshots of
    breadth-first search, depth-first search and A*; [startAnimation]
    arms a repeating timer whose handler replays them.

    Conventions of the embedding.
    - JavaScript numbers are integers ([Z]); [undefined] is [None].
    - An object whose key order matters ([mazeGraph] and its adjacency
      objects, read through [Object.keys]) is the list of the property
      definitions of its literal; node ids are labels such as ['A'] and
      ['B'], for which enumeration order is definition order.
    - An object used as a table ([gScores], [heuristic]) is a [gmap], a
      [Set] is a [gset].
    - The global arrays [algorithmSteps] and [dataStructureSteps] are
      the two fields of [Trace].  A narration line is kept as a
      constructor of [Line]; [render] gives the text the template
      literal of the source produces.
    - [heuristic] is not declared in this script; it is a parameter, as
      is [mazeGraph], which the page template fills in. *)

From stdpp Require Import gmap strings list fin_maps pretty sorting.
From Stdlib Require Import ZArith Lia Ascii.

Open Scope string_scope.
Open Scope list_scope.
Open Scope Z_scope.

(** ** JavaScript objects read in key order *)

Section JsObject.
Context {V : Type}.

(** The property definitions of an object literal, in source order. *)
Definition JsObject := list (string * V).

(** A key defined twice keeps its first position. *)
Fixpoint first_occurrences (ks : list string) : list string :=
  match ks with
  | [] => []
  | k :: ks' => k :: filter (λ k', k' ≠ k) (first_occurrences ks')
  end.

(** [Object.keys(o)]. *)
Definition Object_keys (o : JsObject) : list string :=
  first_occurrences (o.*1).

(** [o[k]]: a key defined twice takes the value defined last;
    [None] is [undefined]. *)
Fixpoint obj_get (o : JsObject) (k : string) : option V :=
  match o with
  | [] => None
  | (k', v) :: o' =>
      match obj_get o' k with
      | Some v' => Some v'
      | None => if decide (k' = k) then Some v else None
      end
  end.
End JsObject.

Arguments JsObject : clear implicits.

(** An adjacency object maps a neighbour to its edge weight; [None] is
    an entry without a weight ([null]). *)
Definition Adjacency := JsObject (option Z).
Definition Graph := JsObject Adjacency.

(** [mazeGraph[node] || {}] *)
Definition adjacency (mazeGraph : Graph) (node : string) : Adjacency :=
  default [] (obj_get mazeGraph node).

(** [Object.keys(mazeGraph[node] || {}).filter(n => !visited.has(n))] *)
Definition unvisited (mazeGraph : Graph) (visited : gset string)
    (node : string) : list string :=
  filter (λ n, n ∉ visited) (Object_keys (adjacency mazeGraph node)).

(** ** Narration lines and snapshots *)

Inductive Line :=
  | InitQueue
  | DequeueNode (stepCount : nat) (node : string)
  | AddToQueue (stepCount : nat) (node : string) (neighbors : list string)
  | InitStack
  | PopNode (stepCount : nat) (node : string)
  | AddToStack (stepCount : nat) (node : string) (neighbors : list string)
  | InitPriorityQueue (h : option Z)
  | RemoveLowest (stepCount : nat) (node : string)
  | EvaluateNeighbors (stepCount : nat) (node : string)
      (unvisitedNeighbors : list string)
  | Calculate (neighbor : string) (newG h f : Z)
  | GoalReached (stepCount : nat)
  | FinalPath (path : list string)
  | PathLength (n : nat)
  | TotalExplored (n : nat).

(** Template-literal rendering of a number or [undefined]. *)
Definition show_num (x : option Z) : string :=
  match x with
  | Some z => pretty z
  | None => "undefined"
  end.

Definition render (l : Line) : string :=
  match l with
  | InitQueue => "Step 0: Initialize queue with start node A"
  | DequeueNode n node => "Step " +:+ pretty n +:+ ": Dequeue node " +:+ node
  | AddToQueue n node ns =>
      "Step " +:+ pretty n +:+ ": Add neighbors of " +:+ node
        +:+ " to queue: " +:+ String.concat ", " ns
  | InitStack => "Step 0: Initialize stack with start node A"
  | PopNode n node =>
      "Step " +:+ pretty n +:+ ": Pop node " +:+ node +:+ " from stack"
  | AddToStack n node ns =>
      "Step " +:+ pretty n +:+ ": Add neighbors of " +:+ node
        +:+ " to stack: " +:+ String.concat ", " ns
  | InitPriorityQueue h =>
      "Step 0: Initialize priority queue with A (g=0, h=" +:+ show_num h
        +:+ ", f=" +:+ show_num h +:+ ")"
  | RemoveLowest n node =>
      "Step " +:+ pretty n +:+ ": Remove node " +:+ node
        +:+ " with lowest f-value from priority queue"
  | EvaluateNeighbors n node ns =>
      "Step " +:+ pretty n +:+ ": Evaluate neighbors of " +:+ node
        +:+ ": " +:+ String.concat ", " ns
  | Calculate nb g h f =>
      "    Calculate for " +:+ nb +:+ ": g=" +:+ pretty g
        +:+ ", h=" +:+ pretty h +:+ ", f=" +:+ pretty f
  | GoalReached n => "Step " +:+ pretty n +:+ ": Goal reached at node B!"
  | FinalPath path =>
      String "010"%char "Final path found: "
        +:+ String.concat " → " path
  | PathLength n => "Path length: " +:+ pretty n +:+ " nodes"
  | TotalExplored n => "Total nodes explored: " +:+ pretty n +:+ " nodes"
  end.

(** The two global arrays the generator fills. *)
Record Trace := mkTrace {
  algorithmSteps : list Line;
  dataStructureSteps : list (list string)
}.

(** [algorithmSteps.push(l)] *)
Definition say (l : Line) (t : Trace) : Trace :=
  mkTrace (algorithmSteps t ++ [l]) (dataStructureSteps t).

(** [dataStructureSteps.push(s)] *)
Definition snap (s : list string) (t : Trace) : Trace :=
  mkTrace (algorithmSteps t) (dataStructureSteps t ++ [s]).

(** The text shown to the user. *)
Definition rendered (t : Trace) : list string := render <$> algorithmSteps t.

(** ** Breadth-first reconstruction *)

Module BFS.
Record State := mkState {
  queue : list string;
  visited : gset string;
  stepCount : nat;
  out : Trace
}.

Definition init : State :=
  {| queue := ["A"];
     visited := {["A"]};
     stepCount := 1;
     out := say InitQueue (snap ["A"] (mkTrace [] [])) |}.

(** [if (i > 0) { ...; queue.shift(); ... }] *)
Definition dequeue (i : nat) (node : string) (st : State) : State :=
  if (0 <? i)%nat then
    let q := tail (queue st) in
    {| queue := q;
       visited := visited st;
       stepCount := S (stepCount st);
       out := snap q (say (DequeueNode (stepCount st) node) (out st)) |}
  else st.

(** [for (const neighbor of neighbors) { visited.add; queue.push }] *)
Definition enqueue_all (neighbors : list string)
    (vq : gset string * list string) : gset string * list string :=
  foldl (λ vq neighbor, ({[neighbor]} ∪ vq.1, vq.2 ++ [neighbor]))
    vq neighbors.

Definition expand (mazeGraph : Graph) (node : string) (st : State) : State :=
  let neighbors := unvisited mazeGraph (visited st) node in
  if (0 <? length neighbors)%nat then
    let vq := enqueue_all neighbors (visited st, queue st) in
    {| queue := vq.2;
       visited := vq.1;
       stepCount := S (stepCount st);
       out := snap vq.2
                (say (AddToQueue (stepCount st) node neighbors) (out st)) |}
  else st.

Definition goal (st : State) : State :=
  {| queue := queue st;
     visited := visited st;
     stepCount := stepCount st;
     out := say (GoalReached (stepCount st)) (out st) |}.

(** One pass through the loop body, up to the goal test. *)
Definition body (mazeGraph : Graph) (i : nat) (node : string)
    (st : State) : State :=
  expand mazeGraph node (dequeue i node st).

(** [for (let i = 0; i < explored.length; i++)], from index [i] on. *)
Fixpoint loop (mazeGraph : Graph) (i : nat) (explored : list string)
    (st : State) : State :=
  match explored with
  | [] => st
  | node :: rest =>
      let st' := body mazeGraph i node st in
      if decide (node = "B") then goal st'
      else loop mazeGraph (S i) rest st'
  end.
End BFS.

(** ** Depth-first reconstruction *)

Module DFS.
Record State := mkState {
  stack : list string;
  visited : gset string;
  stepCount : nat;
  out : Trace
}.

Definition init : State :=
  {| stack := ["A"];
     visited := {["A"]};
     stepCount := 1;
     out := say InitStack (snap ["A"] (mkTrace [] [])) |}.

(** [if (i > 0) { ...; stack.pop(); ... }] *)
Definition pop (i : nat) (node : string) (st : State) : State :=
  if (0 <? i)%nat then
    let s := removelast (stack st) in
    {| stack := s;
       visited := visited st;
       stepCount := S (stepCount st);
       out := snap s (say (PopNode (stepCount st) node) (out st)) |}
  else st.

Definition push_all (neighbors : list string)
    (vs : gset string * list string) : gset string * list string :=
  foldl (λ vs neighbor, ({[neighbor]} ∪ vs.1, vs.2 ++ [neighbor]))
    vs neighbors.

Definition expand (mazeGraph : Graph) (node : string) (st : State) : State :=
  let neighbors := reverse (unvisited mazeGraph (visited st) node) in
  if (0 <? length neighbors)%nat then
    let vs := push_all neighbors (visited st, stack st) in
    {| stack := vs.2;
       visited := vs.1;
       stepCount := S (stepCount st);
       out := snap vs.2
                (say (AddToStack (stepCount st) node neighbors) (out st)) |}
  else st.

Definition goal (st : State) : State :=
  {| stack := stack st;
     visited := visited st;
     stepCount := stepCount st;
     out := say (GoalReached (stepCount st)) (out st) |}.

Definition body (mazeGraph : Graph) (i : nat) (node : string)
    (st : State) : State :=
  expand mazeGraph node (pop i node st).

Fixpoint loop (mazeGraph : Graph) (i : nat) (explored : list string)
    (st : State) : State :=
  match explored with
  | [] => st
  | node :: rest =>
      let st' := body mazeGraph i node st in
      if decide (node = "B") then goal st'
      else loop mazeGraph (S i) rest st'
  end.
End DFS.

(** ** A* reconstruction *)

(** [Array.prototype.sort(compare)]: a stable sort.  An element moves
    past a later one only when [compare] is positive, so elements that
    compare equal keep their order. *)
Section ArraySort.
Context {A : Type} (compare : A → A → Z).

Fixpoint sort_insert (x : A) (l : list A) : list A :=
  match l with
  | [] => [x]
  | y :: l' =>
      if bool_decide (compare x y ≤ 0) then x :: y :: l'
      else y :: sort_insert x l'
  end.

Fixpoint Array_sort (l : list A) : list A :=
  match l with
  | [] => []
  | x :: l' => sort_insert x (Array_sort l')
  end.
End ArraySort.

Module AStar.
(** A queue entry [[node, g, h, f]]. *)
Record Item := mkItem {
  item_node : string;
  item_g : Z;
  item_h : option Z;
  item_f : option Z
}.

(** [(a, b) => a[3] - b[3]]; a difference with [undefined] is [NaN],
    which [sort] reads as [+0]. *)
Definition compareF (a b : Item) : Z :=
  match item_f a, item_f b with
  | Some x, Some y => x - y
  | _, _ => 0
  end.

(** [`${node}(f=${f})`] *)
Definition formatItem (it : Item) : string :=
  item_node it +:+ "(f=" +:+ show_num (item_f it) +:+ ")".

Definition formatPriorityQueue (queue : list Item) : list string :=
  if decide (length queue = 0%nat) then [] else formatItem <$> queue.

Record State := mkState {
  priorityQueue : list Item;
  visited : gset string;
  gScores : gmap string Z;
  stepCount : nat;
  out : Trace
}.

Definition init (heuristic : gmap string Z) : State :=
  let pq := [mkItem "A" 0 (heuristic !! "A") (heuristic !! "A")] in
  {| priorityQueue := pq;
     visited := ∅;
     gScores := {["A" := 0]};
     stepCount := 1;
     out := say (InitPriorityQueue (heuristic !! "A"))
              (snap (formatPriorityQueue pq) (mkTrace [] [])) |}.

(** [visited.add(node); if (i > 0) { ...; priorityQueue.shift(); ... }] *)
Definition remove (i : nat) (node : string) (st : State) : State :=
  let v := {[node]} ∪ visited st in
  if (0 <? i)%nat then
    let pq := tail (priorityQueue st) in
    {| priorityQueue := pq;
       visited := v;
       gScores := gScores st;
       stepCount := S (stepCount st);
       out := snap (formatPriorityQueue pq)
                (say (RemoveLowest (stepCount st) node) (out st)) |}
  else
    {| priorityQueue := priorityQueue st;
       visited := v;
       gScores := gScores st;
       stepCount := stepCount st;
       out := out st |}.

(** [mazeGraph[node][neighbor] || 1] *)
Definition edgeCost (adj : Adjacency) (neighbor : string) : Z :=
  match obj_get adj neighbor with
  | Some (Some w) => if decide (w = 0) then 1 else w
  | _ => 1
  end.

(** The body of [for (const neighbor of unvisitedNeighbors)]. *)
Definition relax (heuristic : gmap string Z) (adj : Adjacency)
    (currentG : Z) (st : State) (neighbor : string) : State :=
  let newG := currentG + edgeCost adj neighbor in
  let h := default 0 (heuristic !! neighbor) in
  let f := newG + h in
  let better :=
    match gScores st !! neighbor with
    | None => true
    | Some old => bool_decide (newG < old)
    end in
  if better then
    {| priorityQueue :=
         Array_sort compareF
           (priorityQueue st ++ [mkItem neighbor newG (Some h) (Some f)]);
       visited := visited st;
       gScores := <[neighbor := newG]> (gScores st);
       stepCount := stepCount st;
       out := say (Calculate neighbor newG h f) (out st) |}
  else st.

Definition evaluate (mazeGraph : Graph) (heuristic : gmap string Z)
    (currentG : Z) (node : string) (st : State) : State :=
  let unvisitedNeighbors := unvisited mazeGraph (visited st) node in
  if (0 <? length unvisitedNeighbors)%nat then
    let st1 :=
      {| priorityQueue := priorityQueue st;
         visited := visited st;
         gScores := gScores st;
         stepCount := stepCount st;
         out := say (EvaluateNeighbors (stepCount st) node
                       unvisitedNeighbors) (out st) |} in
    let st2 :=
      foldl (relax heuristic (adjacency mazeGraph node) currentG)
        st1 unvisitedNeighbors in
    {| priorityQueue := priorityQueue st2;
       visited := visited st2;
       gScores := gScores st2;
       stepCount := S (stepCount st2);
       out := snap (formatPriorityQueue (priorityQueue st2)) (out st2) |}
  else st.

Definition goal (st : State) : State :=
  {| priorityQueue := priorityQueue st;
     visited := visited st;
     gScores := gScores st;
     stepCount := stepCount st;
     out := say (GoalReached (stepCount st)) (out st) |}.

Fixpoint loop (mazeGraph : Graph) (heuristic : gmap string Z) (i : nat)
    (explored : list string) (st : State) : State :=
  match explored with
  | [] => st
  | node :: rest =>
      let currentG := default 0 (gScores st !! node) in
      let st' := remove i node st in
      if decide (node = "B") then goal st'
      else loop mazeGraph heuristic (S i) rest
             (evaluate mazeGraph heuristic currentG node st')
  end.
End AStar.

(** ** The step generator *)

Inductive Exn := TypeError.

(** How a call ends: normally, or by an exception; either way with the
    globals as the call left them. *)
Inductive Completion (A : Type) :=
  | Normal (a : A)
  | Throw (e : Exn) (a : A).
Arguments Normal {A} a.
Arguments Throw {A} e a.

(** The three lines after the branches.  [path.join] and
    [explored.length] raise on [null] ([None]). *)
Definition summary (explored path : option (list string)) (t : Trace)
    : Completion Trace :=
  match path with
  | None => Throw TypeError t
  | Some p =>
      let t := say (PathLength (length p)) (say (FinalPath p) t) in
      match explored with
      | None => Throw TypeError t
      | Some e => Normal (say (TotalExplored (length e)) t)
      end
  end.

Definition generateAlgorithmSteps (mazeGraph : Graph)
    (heuristic : gmap string Z) (algorithm : string)
    (explored path : option (list string)) : Completion Trace :=
  if decide (algorithm = "bfs") then
    match explored with
    | None => Throw TypeError (BFS.out BFS.init)
    | Some e =>
        summary explored path (BFS.out (BFS.loop mazeGraph 0 e BFS.init))
    end
  else if decide (algorithm = "dfs") then
    match explored with
    | None => Throw TypeError (DFS.out DFS.init)
    | Some e =>
        summary explored path (DFS.out (DFS.loop mazeGraph 0 e DFS.init))
    end
  else if decide (algorithm = "astar") then
    match explored with
    | None => Throw TypeError (AStar.out (AStar.init heuristic))
    | Some e =>
        summary explored path
          (AStar.out (AStar.loop mazeGraph heuristic 0 e
                        (AStar.init heuristic)))
    end
  else summary explored path (mkTrace [] []).

(** The generator on arrays that are not [null]: it always returns. *)
Definition steps (mazeGraph : Graph) (heuristic : gmap string Z)
    (algorithm : string) (explored path : list string) : Trace :=
  match generateAlgorithmSteps mazeGraph heuristic algorithm
          (Some explored) (Some path) with
  | Normal t => t
  | Throw _ t => t
  end.

(** ** Playback *)

(** Calls into the page: the rendering side of a tick. *)
Inductive Instr :=
  | highlightNode (nodeId className : string)
  | positionRobotAtNode (nodeId : string)
  | updateAlgorithmStep (step : nat).

(** The handle [setInterval] returns, with the delay it was armed with. *)
Record Timer := mkTimer { delay : Z }.

(** The globals of the animation. *)
Record Animation := mkAnimation {
  animationInterval : option Timer;
  currentAnimationStep : nat;
  exploredNodes : option (list string);
  pathNodes : option (list string);
  shown : Trace
}.

(** [1000 - speed], with [speed] the number the slider holds. *)
Definition animationDelay (speed : Z) : Z := 1000 - speed.

Definition startAnimation (mazeGraph : Graph) (heuristic : gmap string Z)
    (speed : Z) (explored path : option (list string)) (algorithm : string)
    (st : Animation) : Completion Animation :=
  match generateAlgorithmSteps mazeGraph heuristic algorithm explored path with
  | Throw e t =>
      Throw e
        {| animationInterval := animationInterval st;
           currentAnimationStep := currentAnimationStep st;
           exploredNodes := explored;
           pathNodes := path;
           shown := t |}
  | Normal t =>
      Normal
        {| animationInterval := Some (mkTimer (animationDelay speed));
           currentAnimationStep := 0;
           exploredNodes := explored;
           pathNodes := path;
           shown := t |}
  end.

Section Tick.
(** The page: [Some e] when the call raises [e]. *)
Variable page : Instr → option Exn.

(** Calls made one after the other; the first that raises ends the
    handler.  The calls made are returned with the exception. *)
Fixpoint perform (calls : list Instr) : list Instr * option Exn :=
  match calls with
  | [] => ([], None)
  | c :: calls' =>
      match page c with
      | Some e => ([c], Some e)
      | None => let r := perform calls' in (c :: r.1, r.2)
      end
  end.

Definition advance (st : Animation) : Animation :=
  {| animationInterval := animationInterval st;
     currentAnimationStep := S (currentAnimationStep st);
     exploredNodes := exploredNodes st;
     pathNodes := pathNodes st;
     shown := shown st |}.

(** [clearInterval(animationInterval); animationInterval = null] *)
Definition complete (st : Animation) : Animation :=
  {| animationInterval := None;
     currentAnimationStep := currentAnimationStep st;
     exploredNodes := exploredNodes st;
     pathNodes := pathNodes st;
     shown := shown st |}.

(** The handler's calls followed by [currentAnimationStep++]. *)
Definition phase (calls : list Instr) (st : Animation)
    : Completion Animation * list Instr :=
  match perform calls with
  | (done, Some e) => (Throw e st, done)
  | (done, None) => (Normal (advance st), done)
  end.

(** The handler given to [setInterval]. *)
Definition tick (st : Animation) : Completion Animation * list Instr :=
  let step := currentAnimationStep st in
  match exploredNodes st with
  | None => (Throw TypeError st, [])
  | Some explored =>
      if (step <? length explored)%nat then
        let nodeId := nth step explored "" in
        phase [highlightNode nodeId "visited"; updateAlgorithmStep step] st
      else
        match pathNodes st with
        | None => (Throw TypeError st, [])
        | Some path =>
            if (step <? length explored + length path)%nat then
              let pathIndex := (step - length explored)%nat in
              let nodeId := nth pathIndex path "" in
              phase [highlightNode nodeId "in-path";
                     positionRobotAtNode nodeId;
                     updateAlgorithmStep step] st
            else (Normal (complete st), [])
        end
  end.

Definition state_of {A} (c : Completion A) : A :=
  match c with
  | Normal a => a
  | Throw _ a => a
  end.

(** The timer: while it is armed the handler runs again; an exception
    in the handler does not disarm it.  [n] bounds the ticks observed;
    the result lists what each tick called. *)
Fixpoint ticks (n : nat) (st : Animation) : list (list Instr) * Animation :=
  match n with
  | O => ([], st)
  | S n' =>
      match animationInterval st with
      | None => ([], st)
      | Some _ =>
          match tick st with
          | (c, calls) =>
              match ticks n' (state_of c) with
              | (rest, st') => (calls :: rest, st')
              end
          end
      end
  end.
End Tick.

(** [resetMaze()]: the timer cancelled and every buffer emptied. *)
Definition resetMaze (st : Animation) : Animation :=
  {| animationInterval := None;
     currentAnimationStep := 0;
     exploredNodes := Some [];
     pathNodes := Some [];
     shown := mkTrace [] [] |}.

(** ** Examples *)

(** The graph [A-{B:1,C:1}, B-{D:1}, C-{}, D-{}]. *)
Definition graph_ABCD : Graph :=
  [("A", [("B", Some 1); ("C", Some 1)]);
   ("B", [("D", Some 1)]);
   ("C", []);
   ("D", [])].

Definition heuristic_ABCD : gmap string Z :=
  <["A" := 2]> (<["B" := 1]> (<["C" := 1]> (<["D" := 0]> ∅))).

(** The same graph with the goal labelled [B], the label the generator
    tests for, and [D] the node before it:
    [A-{D:1,C:1}, D-{B:1}, C-{}, B-{}]. *)
Definition graph_goal_B : Graph :=
  [("A", [("D", Some 1); ("C", Some 1)]);
   ("D", [("B", Some 1)]);
   ("C", []);
   ("B", [])].

Definition heuristic_goal_B : gmap string Z :=
  <["A" := 2]> (<["D" := 1]> (<["C" := 1]> (<["B" := 0]> ∅))).


(** A page on which no call raises, and one whose step panel is
    missing, so that [updateAlgorithmStep] raises. *)
Definition page_ok : Instr → option Exn := λ _, None.

Definition page_without_panel : Instr → option Exn :=
  λ c, match c with
       | updateAlgorithmStep _ => Some TypeError
       | _ => None
       end.

(** ** Vocabulary of the properties *)

(** The nodes a line reports as put into the queue or the stack. *)
Definition inserted (l : Line) : list string :=
  match l with
  | InitQueue | InitStack => ["A"]
  | AddToQueue _ _ ns | AddToStack _ _ ns => ns
  | _ => []
  end.

(** All of them, in the order of the narration. *)
Definition insertions (ls : list Line) : list string :=
  concat (inserted <$> ls).

(** What the queue holds, in terms of what was narrated. *)
Record BFS_inv (st : BFS.State) : Prop := {
  bfs_hist_nodup : NoDup (insertions (algorithmSteps (BFS.out st)));
  bfs_hist_visited :
    ∀ x, x ∈ insertions (algorithmSteps (BFS.out st)) → x ∈ BFS.visited st;
  bfs_queue_hist :
    ∃ popped,
      insertions (algorithmSteps (BFS.out st)) = popped ++ BFS.queue st;
  bfs_snaps : Forall NoDup (dataStructureSteps (BFS.out st));
  bfs_last : last (dataStructureSteps (BFS.out st)) = Some (BFS.queue st)
}.

(** The queue after [d] passes through the dequeue step: the enqueue
    history without its first [n] nodes, where [n] is [d] unless a
    dequeue found the queue empty (and then showed the empty queue). *)
Definition BFS_shifted (d : nat) (st : BFS.State) : Prop :=
  ∃ n : nat,
    BFS.queue st = drop n (insertions (algorithmSteps (BFS.out st)))
    ∧ (n ≤ length (insertions (algorithmSteps (BFS.out st))))%nat
    ∧ (n ≤ d)%nat
    ∧ (n = d ∨ [] ∈ dataStructureSteps (BFS.out st)).

(** The snapshot the specification gives after the expansion of
    explored node [k]: of the nodes enqueued before, those not yet
    popped, the explored sequence being the order of the pops, then the
    new neighbours. *)
Definition bfs_snapshot_claimed (explored : list string) (k : nat)
    (enqueued fresh : list string) : list string :=
  filter (λ x, x ∉ take (S k) explored) enqueued ++ fresh.

(** What the stack holds: some of the inserted nodes, in their order. *)
Record DFS_inv (st : DFS.State) : Prop := {
  dfs_hist_nodup : NoDup (insertions (algorithmSteps (DFS.out st)));
  dfs_hist_visited :
    ∀ x, x ∈ insertions (algorithmSteps (DFS.out st)) → x ∈ DFS.visited st;
  dfs_stack_hist :
    sublist (DFS.stack st) (insertions (algorithmSteps (DFS.out st)));
  dfs_snaps : Forall NoDup (dataStructureSteps (DFS.out st))
}.












(** The explored nodes up to and including the first goal. *)
Fixpoint through_goal (explored : list string) : list string :=
  match explored with
  | [] => []
  | node :: rest =>
      if decide (node = "B") then [node] else node :: through_goal rest
  end.





(** The line is the goal narration. *)
Definition is_goal_line (l : Line) : bool :=
  match l with
  | GoalReached _ => true
  | _ => false
  end.

(** The number of goal lines of a trace. *)
Definition goal_lines (t : Trace) : nat :=
  length (filter (λ l, is_goal_line l = true) (algorithmSteps t)).

(** One when the explored sequence holds the goal, zero otherwise. *)
Definition reaches_goal (explored : list string) : nat :=
  if decide ("B" ∈ explored) then 1%nat else 0%nat.

(** ** Vocabulary of further properties of the generator *)

(** The step number a line carries; the "Calculate" lines and the
    summary carry none. *)
Definition step_number (l : Line) : option nat :=
  match l with
  | InitQueue | InitStack | InitPriorityQueue _ => Some 0%nat
  | DequeueNode n _ | AddToQueue n _ _ | PopNode n _ | AddToStack n _ _
  | RemoveLowest n _ | EvaluateNeighbors n _ _ | GoalReached n => Some n
  | Calculate _ _ _ _ | FinalPath _ | PathLength _ | TotalExplored _ => None
  end.

(** The step numbers of a narration, in its order. *)
Definition step_numbers (ls : list Line) : list nat := omap step_number ls.

(** The line is a "Calculate" line. *)
Definition is_calculate (l : Line) : bool :=
  match l with
  | Calculate _ _ _ _ => true
  | _ => false
  end.

(** The number of "Calculate" lines of a trace. *)
Definition calculate_lines (t : Trace) : nat :=
  length (filter (λ l, is_calculate l = true) (algorithmSteps t)).

(** The g-value a line records for [node]: the start value of A, and
    the value of a "Calculate" line for the node. *)
Definition g_record (node : string) (l : Line) : list Z :=
  match l with
  | InitPriorityQueue _ => if decide (node = "A") then [0] else []
  | Calculate neighbor newG _ _ =>
      if decide (node = neighbor) then [newG] else []
  | _ => []
  end.

(** The g-values recorded for [node], in the order of the narration. *)
Definition g_history (node : string) (ls : list Line) : list Z :=
  concat (g_record node <$> ls).

(** Snapshot [i] stands beside the narration line numbered [i]. *)
Definition aligned (t : Trace) : Prop :=
  ∀ i s, dataStructureSteps t !! i = Some s →
    ∃ l, algorithmSteps t !! i = Some l ∧ step_number l = Some i.

(** The trace has [n] lines, numbered 0 to [n - 1], and [n] snapshots. *)
Definition numbered (t : Trace) (n : nat) : Prop :=
  step_number <$> algorithmSteps t = Some <$> seq 0 n
  ∧ length (dataStructureSteps t) = n.

(** Lines and snapshots of a trace balance: every line but the
    "Calculate" lines, the goal lines and [d] more came with a
    snapshot. *)
Definition balanced_but (d : nat) (t : Trace) : Prop :=
  length (algorithmSteps t) =
    (length (dataStructureSteps t) + calculate_lines t + goal_lines t + d)%nat.


(** What the A* table of g-values holds, in terms of the narration. *)
Definition g_recorded (st : AStar.State) : Prop :=
  ∀ node,
    StronglySorted (λ a b, b < a)
      (g_history node (algorithmSteps (AStar.out st)))
    ∧ AStar.gScores st !! node =
      last (g_history node (algorithmSteps (AStar.out st))).

(** ** Vocabulary of further properties of the playback *)

(** What the handler calls for explored node [k], and for the path
    node shown at tick [k]. *)
Definition explore_calls (k : nat) (nodeId : string) : list Instr :=
  [highlightNode nodeId "visited"; updateAlgorithmStep k].

Definition path_calls (k : nat) (nodeId : string) : list Instr :=
  [highlightNode nodeId "in-path"; positionRobotAtNode nodeId;
   updateAlgorithmStep k].

(** The calls of a whole animation, tick by tick. *)
Definition schedule (explored path : list string) : list (list Instr) :=
  imap explore_calls explored
    ++ imap (λ j, path_calls (length explored + j)) path.

(** ** The page: maze cells, robot and panels *)

(** A value of [mazeGrid]: a number (99 is a wall, 0 an open cell) or a
    node label. *)
Inductive GridValue :=
  | GNum (n : Z)
  | GStr (s : string).

Global Instance GridValue_eq_dec : EqDecision GridValue.
Proof. solve_decision. Defined.

(** The property key a value gives ([nodeCellMap[value]]), which is
    also the text of its label. *)
Definition key_of (value : GridValue) : string :=
  match value with
  | GNum n => pretty n
  | GStr s => s
  end.

(** [value] is neither [99] nor [0]: the cell is a node. *)
Definition is_node (value : GridValue) : Prop :=
  value ≠ GNum 99 ∧ value ≠ GNum 0.

Global Instance is_node_dec value : Decision (is_node value).
Proof. unfold is_node. apply _. Defined.

(** A [div] of the maze: its class list and the text of its label. *)
Record Cell := mkCell {
  classList : list string;
  label : option string
}.

(** [classList.add(c)] and [classList.remove(c1, c2, ...)]. *)
Definition classList_add (c : string) (cl : list string) : list string :=
  if decide (c ∈ cl) then cl else cl ++ [c].

Definition classList_remove (cs : list string) (cl : list string)
    : list string :=
  filter (λ c, c ∉ cs) cl.

(** What the data-structure panel shows: item boxes, each with its
    text and whether it carries [current-item], or a plain text. *)
Inductive Panel :=
  | PanelItems (items : list (string * bool))
  | PanelText (text : string).

Module Page.
Record State := mkState {
  nodeCellMap : gmap string (nat * nat);
  cellNodeMap : gmap string GridValue;
  robotElement : option (option (Z * Z));
  cells : list Cell;
  stepsContainer : string;
  dataStructureContainer : Panel
}.

(** The page before the script runs: empty maps, no robot. *)
Definition initial : State :=
  {| nodeCellMap := ∅;
     cellNodeMap := ∅;
     robotElement := None;
     cells := [];
     stepsContainer := "";
     dataStructureContainer := PanelItems [] |}.

Definition set_robot (r : option (option (Z * Z))) (p : State) : State :=
  {| nodeCellMap := nodeCellMap p;
     cellNodeMap := cellNodeMap p;
     robotElement := r;
     cells := cells p;
     stepsContainer := stepsContainer p;
     dataStructureContainer := dataStructureContainer p |}.

Definition set_cells (cs : list Cell) (p : State) : State :=
  {| nodeCellMap := nodeCellMap p;
     cellNodeMap := cellNodeMap p;
     robotElement := robotElement p;
     cells := cs;
     stepsContainer := stepsContainer p;
     dataStructureContainer := dataStructureContainer p |}.

Definition set_maps (n : gmap string (nat * nat)) (c : gmap string GridValue)
    (p : State) : State :=
  {| nodeCellMap := n;
     cellNodeMap := c;
     robotElement := robotElement p;
     cells := cells p;
     stepsContainer := stepsContainer p;
     dataStructureContainer := dataStructureContainer p |}.

Definition set_panels (s : string) (d : Panel) (p : State) : State :=
  {| nodeCellMap := nodeCellMap p;
     cellNodeMap := cellNodeMap p;
     robotElement := robotElement p;
     cells := cells p;
     stepsContainer := s;
     dataStructureContainer := d |}.

(** The centre of a cell in pixels: [{x, y}]. *)
Definition getCellCenter (row col : nat) : Z * Z :=
  let cellSize := 50 in
  let gridGap := 2 in
  (Z.of_nat col * (cellSize + gridGap) + cellSize / 2,
   Z.of_nat row * (cellSize + gridGap) + cellSize / 2).

Definition positionRobotAtNode (nodeId : string) (p : State) : State :=
  match nodeCellMap p !! nodeId, robotElement p with
  | Some (row, col), Some _ =>
      set_robot (Some (Some (getCellCenter row col))) p
  | _, _ => p
  end.

(** The cell [createMaze] makes for a value. *)
Definition new_cell (value : GridValue) : Cell :=
  if decide (value = GNum 99) then mkCell ["cell"; "wall"] None
  else if decide (value = GNum 0) then mkCell ["cell"; "path"] None
  else
    mkCell
      (if decide (value = GStr "A") then classList_add "start" ["cell"; "node"]
       else if decide (value = GStr "B")
            then classList_add "goal" ["cell"; "node"]
            else ["cell"; "node"])
      (Some (key_of value)).

(** The key [`${row},${col}`]. *)
Definition cell_key (row col : nat) : string :=
  pretty row +:+ "," +:+ pretty col.

(** The body of the inner loop of [createMaze]. *)
Definition place (row col : nat) (value : GridValue) (p : State) : State :=
  let p' :=
    if decide (is_node value) then
      set_maps (<[key_of value := (row, col)]> (nodeCellMap p))
        (<[cell_key row col := value]> (cellNodeMap p)) p
    else p in
  set_cells (cells p' ++ [new_cell value]) p'.

Fixpoint fill_row (row col : nat) (values : list GridValue) (p : State)
    : State :=
  match values with
  | [] => p
  | value :: rest => fill_row row (S col) rest (place row col value p)
  end.

Fixpoint fill_rows (row : nat) (grid : list (list GridValue)) (p : State)
    : State :=
  match grid with
  | [] => p
  | values :: rest => fill_rows (S row) rest (fill_row row 0 values p)
  end.

(** [createMaze()]: the container emptied, a new robot, one cell per
    grid value in row order, the robot put on node A.  The two maps
    are not emptied. *)
Definition createMaze (mazeGrid : list (list GridValue)) (p : State) : State :=
  positionRobotAtNode "A"
    (fill_rows 0 mazeGrid (set_cells [] (set_robot (Some None) p))).

(** [highlightNode(nodeId, className)]; [mazeGrid[0].length] raises on
    an empty grid. *)
Definition highlightNode (mazeGrid : list (list GridValue))
    (nodeId className : string) (p : State) : Completion State :=
  match nodeCellMap p !! nodeId with
  | None => Normal p
  | Some (row, col) =>
      match mazeGrid with
      | [] => Throw TypeError p
      | row0 :: _ =>
          let index := (row * length row0 + col)%nat in
          match cells p !! index with
          | Some cell =>
              Normal
                (set_cells
                   (<[index :=
                        mkCell (classList_add className (classList cell))
                          (label cell)]> (cells p)) p)
          | None => Normal p
          end
      end
  end.

(** The item boxes of a snapshot: the first is marked when there is
    more than one. *)
Definition panel_items (items : list string) : list (string * bool) :=
  imap (λ index item,
          (item, bool_decide (index = 0%nat ∧ (1 < length items)%nat)))
    items.

(** [updateAlgorithmStep(step)] for the trace [t]. *)
Definition updateAlgorithmStep (t : Trace) (step : nat) (p : State) : State :=
  let s :=
    if (step <? length (algorithmSteps t))%nat then
      String.concat (String "010"%char "")
        (render <$> take (S step) (algorithmSteps t))
    else stepsContainer p in
  let d :=
    match dataStructureSteps t !! step with
    | Some items =>
        if (0 <? length items)%nat then PanelItems (panel_items items)
        else PanelText "(empty)"
    | None => dataStructureContainer p
    end in
  set_panels s d p.

(** The page part of [resetMaze()]. *)
Definition resetMaze (p : State) : State :=
  set_panels "" (PanelItems [])
    (positionRobotAtNode "A"
       (set_cells
          ((λ cell,
              mkCell (classList_remove ["visited"; "in-path"] (classList cell))
                (label cell)) <$> cells p) p)).
End Page.

(** What a call of the handler does to the page. *)
Definition exec (mazeGrid : list (list GridValue)) (t : Trace) (c : Instr)
    (p : Page.State) : Completion Page.State :=
  match c with
  | highlightNode nodeId className =>
      Page.highlightNode mazeGrid nodeId className p
  | positionRobotAtNode nodeId => Normal (Page.positionRobotAtNode nodeId p)
  | updateAlgorithmStep step => Normal (Page.updateAlgorithmStep t step p)
  end.

(** The calls of a handler, one after the other, up to the first that
    raises. *)
Fixpoint exec_all (mazeGrid : list (list GridValue)) (t : Trace)
    (calls : list Instr) (p : Page.State) : Completion Page.State :=
  match calls with
  | [] => Normal p
  | c :: calls' =>
      match exec mazeGrid t c p with
      | Normal p' => exec_all mazeGrid t calls' p'
      | Throw e p' => Throw e p'
      end
  end.

(** ** Vocabulary of the properties of the page *)

(** The values of a grid with their row and column, in row order,
    rows counted from [row]. *)
Definition indexed_from (row : nat) (grid : list (list GridValue))
    : list (nat * nat * GridValue) :=
  concat (imap (λ r values, imap (λ c v, (row + r, c, v)%nat) values) grid).

(** The entry [createMaze] writes into [nodeCellMap] for a cell. *)
Definition node_entry (e : nat * nat * GridValue)
    : option (string * (nat * nat)) :=
  if decide (is_node e.2) then Some (key_of e.2, (e.1.1, e.1.2)) else None.

(** The entry it writes into [cellNodeMap]. *)
Definition cell_entry (e : nat * nat * GridValue)
    : option (string * GridValue) :=
  if decide (is_node e.2) then Some (Page.cell_key e.1.1 e.1.2, e.2)
  else None.

(** The cell as [resetMaze] leaves it. *)
Definition unmarked (cell : Cell) : Cell :=
  mkCell (classList_remove ["visited"; "in-path"] (classList cell))
    (label cell).

(** A call the handler can make: it highlights with [visited] or
    [in-path] only. *)
Definition playback_call (c : Instr) : Prop :=
  match c with
  | highlightNode _ className => className = "visited" ∨ className = "in-path"
  | _ => True
  end.

(** The panel [updateAlgorithmStep] builds for a snapshot. *)
Definition panel_of (items : list string) : Panel :=
  if (0 <? length items)%nat then PanelItems (Page.panel_items items)
  else PanelText "(empty)".

(** [lines.join('\n')] of rendered lines. *)
Definition joined (ls : list Line) : string :=
  String.concat (String "010"%char "") (render <$> ls).

(** The fields of a page after the cells [es] were placed. *)
Definition placed (es : list (nat * nat * GridValue)) (p p' : Page.State)
    : Prop :=
  Page.nodeCellMap p' =
    list_to_map (reverse (omap node_entry es)) ∪ Page.nodeCellMap p
  ∧ Page.cellNodeMap p' =
    list_to_map (reverse (omap cell_entry es)) ∪ Page.cellNodeMap p
  ∧ Page.cells p' = Page.cells p ++ (Page.new_cell ∘ snd <$> es)
  ∧ Page.robotElement p' = Page.robotElement p
  ∧ Page.stepsContainer p' = Page.stepsContainer p
  ∧ Page.dataStructureContainer p' = Page.dataStructureContainer p.

(** The robot position [createMaze] and [resetMaze] give for the map
    entry of node A: the centre of its cell, or none. *)
Definition robot_on (entry : option (nat * nat)) : option (Z * Z) :=
  (λ rc, Page.getCellCenter rc.1 rc.2) <$> entry.

(** The width [highlightNode] takes for the grid: that of row 0. *)
Definition width (grid : list (list GridValue)) : nat :=
  length (default [] (head grid)).

(** Every row is as long as the first. *)
Definition rectangular (grid : list (list GridValue)) : Prop :=
  ∀ values, values ∈ grid → length values = width grid.

(** On an empty grid the node map is empty, so that [highlightNode]
    does not reach [mazeGrid[0].length]. *)
Definition grid_known (grid : list (list GridValue)) (p : Page.State) : Prop :=
  grid = [] → Page.nodeCellMap p = ∅.

(** The panel after the snapshots [shown]: that of the last one. *)
Definition panel_after (shown : list (list string)) : Panel :=
  match last shown with
  | Some items => panel_of items
  | None => PanelItems []
  end.

(** ** The solve button *)

(** What [await response.json()] gives: a rejection, [null], or an
    object whose [explored] and [path] fields may be absent. *)
Inductive Body :=
  | Unreadable
  | JsonNull
  | JsonObject (explored path : option (list string)).

(** What the two awaits of [solveMaze] give: [fetch] rejects, or a
    response with its [ok] flag and its body. *)
Inductive Response :=
  | FetchRejected
  | Answered (ok : bool) (body : Body).

(** What the [catch] block reports with [alert]. *)
Inductive Failure :=
  | RequestFailed
  | ResponseNotOk
  | BodyUnreadable
  | Raised (e : Exn).

(** The globals, the page, the solve button and the alerts shown. *)
Record App := mkApp {
  app_animation : Animation;
  app_page : Page.State;
  solveButton_disabled : bool;
  alerts : list Failure
}.

(** [solveMaze()] up to its first [await]: [resetMaze()], then the
    button is disabled. *)
Definition solveMaze_begin (a : App) : App :=
  {| app_animation := resetMaze (app_animation a);
     app_page := Page.resetMaze (app_page a);
     solveButton_disabled := true;
     alerts := alerts a |}.

(** How the [try] block ends for a response: normally with the new
    globals, or in the [catch] block with what it reports. *)
Definition solveMaze_try (mazeGraph : Graph) (heuristic : gmap string Z)
    (speed : Z) (algorithm : string) (response : Response)
    (st : Animation) : Animation * option Failure :=
  match response with
  | FetchRejected => (st, Some RequestFailed)
  | Answered false _ => (st, Some ResponseNotOk)
  | Answered true Unreadable => (st, Some BodyUnreadable)
  | Answered true JsonNull => (st, Some (Raised TypeError))
  | Answered true (JsonObject explored path) =>
      match startAnimation mazeGraph heuristic speed explored path
              algorithm st with
      | Normal st' => (st', None)
      | Throw e st' => (st', Some (Raised e))
      end
  end.

(** [solveMaze()] after its awaits: the rest of the [try] block, the
    [catch] block and the [finally] block. *)
Definition solveMaze_settle (mazeGraph : Graph) (heuristic : gmap string Z)
    (speed : Z) (algorithm : string) (response : Response) (a : App) : App :=
  let r := solveMaze_try mazeGraph heuristic speed algorithm response
             (app_animation a) in
  {| app_animation := r.1;
     app_page := app_page a;
     solveButton_disabled := false;
     alerts := alerts a ++ option_list r.2 |}.

Definition solveMaze (mazeGraph : Graph) (heuristic : gmap string Z)
    (speed : Z) (algorithm : string) (response : Response) (a : App) : App :=
  solveMaze_settle mazeGraph heuristic speed algorithm response
    (solveMaze_begin a).

(** The response carries both arrays. *)
Definition usable (response : Response) : Prop :=
  ∃ explored path,
    response = Answered true (JsonObject (Some explored) (Some path)).

(** * Properties *)

(** ** The generator on arrays always returns *)

Lemma summary_Some explored path t :
  summary (Some explored) (Some path) t =
    Normal (say (TotalExplored (length explored))
              (say (PathLength (length path)) (say (FinalPath path) t))).
Proof. reflexivity. Qed.

Lemma generateAlgorithmSteps_returns mazeGraph heuristic algorithm explored path :
  generateAlgorithmSteps mazeGraph heuristic algorithm
    (Some explored) (Some path) =
  Normal (steps mazeGraph heuristic algorithm explored path).
Proof.
  unfold steps, generateAlgorithmSteps.
  repeat case_decide; by rewrite summary_Some.
Qed.

Lemma steps_bfs mazeGraph heuristic explored path :
  steps mazeGraph heuristic "bfs" explored path =
    say (TotalExplored (length explored))
      (say (PathLength (length path))
         (say (FinalPath path)
            (BFS.out (BFS.loop mazeGraph 0 explored BFS.init)))).
Proof. reflexivity. Qed.

Lemma steps_dfs mazeGraph heuristic explored path :
  steps mazeGraph heuristic "dfs" explored path =
    say (TotalExplored (length explored))
      (say (PathLength (length path))
         (say (FinalPath path)
            (DFS.out (DFS.loop mazeGraph 0 explored DFS.init)))).
Proof. reflexivity. Qed.

Lemma steps_astar mazeGraph heuristic explored path :
  steps mazeGraph heuristic "astar" explored path =
    say (TotalExplored (length explored))
      (say (PathLength (length path))
         (say (FinalPath path)
            (AStar.out (AStar.loop mazeGraph heuristic 0 explored
                          (AStar.init heuristic))))).
Proof. reflexivity. Qed.

(** ** C9: an unknown algorithm kind *)

(** C9. For an algorithm kind other than "bfs", "dfs" and "astar" the
    generator returns, for every explored and path array, exactly the
    three summary lines (the path, its node count, the explored count)
    and no snapshot; in particular no initialize step. *)
Theorem unknown_algorithm_summary_only
    (mazeGraph : Graph) (heuristic : gmap string Z) (algorithm : string)
    (explored path : list string) :
  algorithm ≠ "bfs" → algorithm ≠ "dfs" → algorithm ≠ "astar" →
  generateAlgorithmSteps mazeGraph heuristic algorithm
    (Some explored) (Some path) =
  Normal (mkTrace [FinalPath path; PathLength (length path);
                   TotalExplored (length explored)] []).
Proof.
  intros Hb Hd Ha. unfold generateAlgorithmSteps.
  rewrite !decide_False by done. reflexivity.
Qed.

Lemma unknown_algorithm_summary_only_witness :
  generateAlgorithmSteps graph_ABCD heuristic_ABCD "dijkstra"
    (Some ["A"; "B"]) (Some ["A"; "B"]) =
  Normal (mkTrace [FinalPath ["A"; "B"]; PathLength 2; TotalExplored 2] []).
Proof.
  apply (unknown_algorithm_summary_only graph_ABCD heuristic_ABCD "dijkstra"
           ["A"; "B"] ["A"; "B"]); discriminate.
Defined.

(** ** C2: the depth-first scenario *)

(** On the graph of the scenario with [explored = [A,C,B,D]] the first
    three snapshots are [A], [A,C,B] and [A,C], not [A], [C,B] and [B]:
    the start node stays at the bottom of the stack, and the pop
    narrated for C takes the top of the stack, which is B.  It is the
    same when the goal carries the label [B] that the generator tests
    for. *)
Lemma dfs_stack_keeps_start_node :
  take 3
    (dataStructureSteps
       (steps graph_ABCD heuristic_ABCD "dfs" ["A"; "C"; "B"; "D"]
          ["A"; "B"; "D"]))
  = [["A"]; ["A"; "C"; "B"]; ["A"; "C"]]
  ∧ take 3
      (dataStructureSteps
         (steps graph_ABCD heuristic_ABCD "dfs" ["A"; "C"; "B"; "D"]
            ["A"; "B"; "D"]))
    ≠ [["A"]; ["C"; "B"]; ["B"]]
  ∧ take 3
      (dataStructureSteps
         (steps graph_goal_B heuristic_goal_B "dfs" ["A"; "C"; "D"; "B"]
            ["A"; "D"; "B"]))
    = [["A"]; ["A"; "C"; "D"]; ["A"; "C"]]
  ∧ take 3
      (dataStructureSteps
         (steps graph_goal_B heuristic_goal_B "dfs" ["A"; "C"; "D"; "B"]
            ["A"; "D"; "B"]))
    ≠ [["A"]; ["C"; "D"]; ["D"]].
Proof.
  vm_compute. split; [reflexivity|]. split; [discriminate|].
  split; [reflexivity | discriminate].
Qed.

(** C2 (amended). On the graph of the scenario with the goal labelled
    B, A-{D:1,C:1}, D-{B:1}, C-{}, B-{}, and explored = [A,C,D,B], the
    depth-first reconstruction emits the snapshots [A], [A,C,D], [A,C],
    [A], [A,B], [A]: the neighbours of A are reversed to [C,D] and
    pushed above A, which is never popped; the pop narrated for C
    removes the top of the stack, D, and the pop narrated for D removes
    C; expanding D pushes B; the pop narrated for B removes B and is
    followed by the goal line, B being expanded no further. *)
Theorem dfs_scenario (heuristic : gmap string Z) (path : list string) :
  steps graph_goal_B heuristic "dfs" ["A"; "C"; "D"; "B"] path =
  mkTrace
    [InitStack; AddToStack 1 "A" ["C"; "D"]; PopNode 2 "C"; PopNode 3 "D";
     AddToStack 4 "D" ["B"]; PopNode 5 "B"; GoalReached 6;
     FinalPath path; PathLength (length path); TotalExplored 4]
    [["A"]; ["A"; "C"; "D"]; ["A"; "C"]; ["A"]; ["A"; "B"]; ["A"]].
Proof. reflexivity. Qed.

(** ** C8: the interval *)

(** A speed above 1000 gives a negative interval: nothing clamps it. *)
Lemma animationDelay_negative :
  animationDelay 1500 = -500
  ∧ ∃ st, startAnimation graph_ABCD heuristic_ABCD 1500
            (Some ["A"; "B"]) (Some ["A"; "B"]) "bfs"
            (resetMaze (mkAnimation None 0 None None (mkTrace [] [])))
          = Normal st
        ∧ animationInterval st = Some (mkTimer (-500)).
Proof. split; [reflexivity|]. eexists. split; reflexivity. Qed.

(** C8 (amended). The interval is 1000 minus the speed, so a higher
    speed gives a strictly shorter interval; it is not clamped, and is
    non-negative exactly when the speed is at most 1000.  The timer is
    armed with that interval. *)
Theorem animationDelay_spec (mazeGraph : Graph) (heuristic : gmap string Z)
    (algorithm : string) (explored path : list string) (st0 : Animation)
    (speed speed' : Z) :
  speed < speed' →
  animationDelay speed = 1000 - speed
  ∧ animationDelay speed' < animationDelay speed
  ∧ (0 ≤ animationDelay speed ↔ speed ≤ 1000)
  ∧ ∃ st, startAnimation mazeGraph heuristic speed (Some explored)
            (Some path) algorithm st0 = Normal st
        ∧ animationInterval st = Some (mkTimer (1000 - speed)).
Proof.
  intros Hlt. unfold startAnimation, animationDelay.
  rewrite generateAlgorithmSteps_returns.
  repeat split; try lia. eexists. split; reflexivity.
Qed.

Lemma animationDelay_spec_witness :
  animationDelay 100 = 900
  ∧ animationDelay 200 < animationDelay 100
  ∧ (0 ≤ animationDelay 100 ↔ 100 ≤ 1000)
  ∧ ∃ st, startAnimation graph_ABCD heuristic_ABCD 100 (Some ["A"; "B"])
            (Some ["A"; "B"]) "dfs"
            (resetMaze (mkAnimation None 0 None None (mkTrace [] [])))
          = Normal st
        ∧ animationInterval st = Some (mkTimer (1000 - 100)).
Proof.
  apply (animationDelay_spec graph_ABCD heuristic_ABCD "dfs" ["A"; "B"]
           ["A"; "B"] _ 100 200). lia.
Defined.

(** ** C6 and C7: the timer *)

Lemma perform_ok page calls :
  (∀ c, page c = None) → perform page calls = (calls, None).
Proof.
  intros Hok. induction calls as [|c calls IH]; simpl; [done|].
  by rewrite Hok, IH.
Qed.

Lemma phase_ok page calls st :
  (∀ c, page c = None) → phase page calls st = (Normal (advance st), calls).
Proof. intros Hok. unfold phase. by rewrite perform_ok. Qed.

Lemma phase_Throw page calls st e st' done :
  phase page calls st = (Throw e st', done) → st' = st.
Proof.
  unfold phase. destruct (perform page calls) as [d [e'|]]; congruence.
Qed.

(** A handler that raises leaves every global as it was: the timer it
    runs under stays armed and the step is not advanced. *)
Lemma tick_Throw page st e st' done :
  tick page st = (Throw e st', done) → st' = st.
Proof.
  unfold tick. destruct (exploredNodes st) as [explored|]; [|congruence].
  case_match; [apply phase_Throw|].
  destruct (pathNodes st) as [path|]; [|congruence].
  case_match; [apply phase_Throw | congruence].
Qed.

Lemma tick_explore page st explored :
  (∀ c, page c = None) →
  exploredNodes st = Some explored →
  (currentAnimationStep st < length explored)%nat →
  tick page st =
    (Normal (advance st),
     [highlightNode (nth (currentAnimationStep st) explored "") "visited";
      updateAlgorithmStep (currentAnimationStep st)]).
Proof.
  intros Hok He Hlt. unfold tick. rewrite He.
  apply Nat.ltb_lt in Hlt. rewrite Hlt. by apply phase_ok.
Qed.

Lemma tick_path page st explored path :
  (∀ c, page c = None) →
  exploredNodes st = Some explored →
  pathNodes st = Some path →
  (length explored ≤ currentAnimationStep st)%nat →
  (currentAnimationStep st < length explored + length path)%nat →
  tick page st =
    (Normal (advance st),
     [highlightNode
        (nth (currentAnimationStep st - length explored) path "") "in-path";
      positionRobotAtNode
        (nth (currentAnimationStep st - length explored) path "");
      updateAlgorithmStep (currentAnimationStep st)]).
Proof.
  intros Hok He Hp Hge Hlt. unfold tick. rewrite He, Hp.
  apply Nat.ltb_ge in Hge. rewrite Hge.
  apply Nat.ltb_lt in Hlt. rewrite Hlt. by apply phase_ok.
Qed.

Lemma tick_complete page st explored path :
  exploredNodes st = Some explored →
  pathNodes st = Some path →
  (length explored + length path ≤ currentAnimationStep st)%nat →
  tick page st = (Normal (complete st), []).
Proof.
  intros He Hp Hge. unfold tick. rewrite He, Hp.
  assert ((currentAnimationStep st <? length explored)%nat = false) as ->
    by (apply Nat.ltb_ge; lia).
  apply Nat.ltb_ge in Hge. by rewrite Hge.
Qed.

Lemma ticks_S page n st timer c calls :
  animationInterval st = Some timer →
  tick page st = (c, calls) →
  ticks page (S n) st =
    (calls :: (ticks page n (state_of c)).1, (ticks page n (state_of c)).2).
Proof.
  intros Ht Htick. simpl. rewrite Ht, Htick.
  by destruct (ticks page n (state_of c)).
Qed.

Lemma ticks_disarmed page n st :
  animationInterval st = None → ticks page n st = ([], st).
Proof. intros H. destruct n; simpl; [done|]. by rewrite H. Qed.

(** C6. With three explored nodes and two path nodes, on a page whose
    calls do not raise, the first five ticks each call the page: ticks 0
    to 2 highlight an explored node and do not move the robot, ticks 3
    and 4 highlight a path node and move the robot to it.  The timer is
    still armed after them; the sixth tick calls nothing and cancels
    it, and no tick runs afterwards. *)
Theorem scheduler_three_explored_two_path
    (page : Instr → option Exn) (mazeGraph : Graph)
    (heuristic : gmap string Z) (speed : Z) (algorithm : string)
    (st0 : Animation) (e0 e1 e2 p0 p1 : string) :
  (∀ c, page c = None) →
  ∃ st st5,
    startAnimation mazeGraph heuristic speed (Some [e0; e1; e2])
      (Some [p0; p1]) algorithm st0 = Normal st
    ∧ ticks page 5 st =
        ([[highlightNode e0 "visited"; updateAlgorithmStep 0];
          [highlightNode e1 "visited"; updateAlgorithmStep 1];
          [highlightNode e2 "visited"; updateAlgorithmStep 2];
          [highlightNode p0 "in-path"; positionRobotAtNode p0;
           updateAlgorithmStep 3];
          [highlightNode p1 "in-path"; positionRobotAtNode p1;
           updateAlgorithmStep 4]], st5)
    ∧ is_Some (animationInterval st5)
    ∧ tick page st5 = (Normal (complete st5), [])
    ∧ animationInterval (complete st5) = None
    ∧ ∀ n, ticks page n (complete st5) = ([], complete st5).
Proof.
  intros Hok. unfold startAnimation.
  rewrite generateAlgorithmSteps_returns.
  generalize (steps mazeGraph heuristic algorithm [e0; e1; e2] [p0; p1]).
  intros t.
  eexists _, _. split; [reflexivity|].
  split.
  { do 3 (erewrite ticks_S;
            [| reflexivity | by apply tick_explore; [|reflexivity|simpl; lia]]).
    do 2 (erewrite ticks_S;
            [| reflexivity
             | by eapply tick_path; [|reflexivity|reflexivity|simpl; lia..]]).
    reflexivity. }
  split; [by eexists|].
  split; [reflexivity|]. split; [reflexivity|].
  intros n. by apply ticks_disarmed.
Qed.

Lemma scheduler_three_explored_two_path_witness :
  ∃ st st5,
    startAnimation graph_ABCD heuristic_ABCD 900 (Some ["A"; "C"; "B"])
      (Some ["A"; "B"]) "bfs"
      (resetMaze (mkAnimation None 0 None None (mkTrace [] []))) = Normal st
    ∧ ticks page_ok 5 st =
        ([[highlightNode "A" "visited"; updateAlgorithmStep 0];
          [highlightNode "C" "visited"; updateAlgorithmStep 1];
          [highlightNode "B" "visited"; updateAlgorithmStep 2];
          [highlightNode "A" "in-path"; positionRobotAtNode "A";
           updateAlgorithmStep 3];
          [highlightNode "B" "in-path"; positionRobotAtNode "B";
           updateAlgorithmStep 4]], st5)
    ∧ is_Some (animationInterval st5)
    ∧ tick page_ok st5 = (Normal (complete st5), [])
    ∧ animationInterval (complete st5) = None
    ∧ ∀ n, ticks page_ok n (complete st5) = ([], complete st5).
Proof.
  apply (scheduler_three_explored_two_path page_ok graph_ABCD heuristic_ABCD
           900 "bfs" _ "A" "C" "B" "A" "B").
  reflexivity.
Defined.

(** Started with [null] for the explored array, the generator raises
    while reading its length: the call ends by a [TypeError]. *)
Lemma start_null_raises :
  startAnimation graph_ABCD heuristic_ABCD 900 None (Some ["A"; "B"]) "bfs"
    (resetMaze (mkAnimation None 0 None None (mkTrace [] [])))
  = Throw TypeError
      (mkAnimation None 0 None (Some ["A"; "B"])
         (mkTrace [InitQueue] [["A"]])).
Proof. reflexivity. Qed.

Lemma generateAlgorithmSteps_null mazeGraph heuristic algorithm explored path :
  explored = None ∨ path = None →
  ∃ t, generateAlgorithmSteps mazeGraph heuristic algorithm explored path
       = Throw TypeError t.
Proof.
  intros Hnull. unfold generateAlgorithmSteps, summary.
  destruct explored as [e|], path as [p|];
    [by destruct Hnull | | |]; repeat case_decide; eauto.
Qed.

(** C7 (amended). Started with empty explored and path arrays, the
    scheduler arms its timer and calls nothing; the first tick calls
    nothing and cancels the timer.  Started with [null] for either
    array it raises a [TypeError] and arms no timer.  A handler that
    raises does not cancel the timer: it leaves the globals, the armed
    timer among them, as they were. *)
Theorem start_empty_or_null
    (page : Instr → option Exn) (mazeGraph : Graph)
    (heuristic : gmap string Z) (speed : Z) (algorithm : string)
    (st0 : Animation) (explored path : option (list string))
    (st st' : Animation) (e : Exn) (calls : list Instr) :
  explored = None ∨ path = None →
  tick page st = (Throw e st', calls) →
  (∃ st1, startAnimation mazeGraph heuristic speed (Some []) (Some [])
            algorithm st0 = Normal st1
        ∧ animationInterval st1 = Some (mkTimer (animationDelay speed))
        ∧ tick page st1 = (Normal (complete st1), [])
        ∧ animationInterval (complete st1) = None
        ∧ ∀ n, ticks page (S n) st1 = ([[]], complete st1))
  ∧ (∃ st2, startAnimation mazeGraph heuristic speed explored path
              algorithm st0 = Throw TypeError st2
          ∧ animationInterval st2 = animationInterval st0)
  ∧ st' = st
  ∧ animationInterval st' = animationInterval st.
Proof.
  intros Hnull Htick. split; [|split].
  - unfold startAnimation. rewrite generateAlgorithmSteps_returns.
    generalize (steps mazeGraph heuristic algorithm [] []). intros t.
    eexists. split; [reflexivity|]. split; [reflexivity|].
    split; [reflexivity|]. split; [reflexivity|].
    intros n. erewrite ticks_S; [|reflexivity..].
    by rewrite ticks_disarmed.
  - unfold startAnimation.
    destruct (generateAlgorithmSteps_null mazeGraph heuristic algorithm
                explored path Hnull) as [t ->].
    eexists. split; reflexivity.
  - apply tick_Throw in Htick as ->. done.
Qed.

Lemma start_empty_or_null_witness :
  let st := mkAnimation (Some (mkTimer 100)) 0 (Some ["A"]) (Some [])
              (mkTrace [] []) in
  (∃ st1, startAnimation graph_ABCD heuristic_ABCD 900 (Some []) (Some [])
            "bfs" (resetMaze st) = Normal st1
        ∧ animationInterval st1 = Some (mkTimer (animationDelay 900))
        ∧ tick page_without_panel st1 = (Normal (complete st1), [])
        ∧ animationInterval (complete st1) = None
        ∧ ∀ n, ticks page_without_panel (S n) st1 = ([[]], complete st1))
  ∧ (∃ st2, startAnimation graph_ABCD heuristic_ABCD 900 None (Some [])
              "bfs" (resetMaze st) = Throw TypeError st2
          ∧ animationInterval st2 = animationInterval (resetMaze st))
  ∧ st = st
  ∧ animationInterval st = animationInterval st.
Proof.
  intros st.
  apply (start_empty_or_null page_without_panel graph_ABCD heuristic_ABCD
           900 "bfs" (resetMaze st) None (Some []) st st TypeError
           [highlightNode "A" "visited"; updateAlgorithmStep 0]).
  - left. reflexivity.
  - reflexivity.
Defined.

(** ** Keys, neighbours and insertion *)

Lemma first_occurrences_elem (ks : list string) x :
  x ∈ first_occurrences ks ↔ x ∈ ks.
Proof.
  induction ks as [|k ks IH]; simpl; [done|].
  rewrite !elem_of_cons, list_elem_of_filter, IH.
  destruct (decide (x = k)); naive_solver.
Qed.

Lemma NoDup_first_occurrences (ks : list string) :
  NoDup (first_occurrences ks).
Proof.
  induction ks as [|k ks IH]; simpl; [constructor|].
  apply NoDup_cons. split.
  - rewrite list_elem_of_filter. naive_solver.
  - by apply NoDup_filter.
Qed.

Lemma NoDup_Object_keys {V} (o : JsObject V) : NoDup (Object_keys o).
Proof. apply NoDup_first_occurrences. Qed.

Lemma NoDup_unvisited mazeGraph visited node :
  NoDup (unvisited mazeGraph visited node).
Proof. apply NoDup_filter, NoDup_Object_keys. Qed.

Lemma unvisited_fresh mazeGraph visited node x :
  x ∈ unvisited mazeGraph visited node → x ∉ visited.
Proof. unfold unvisited. rewrite list_elem_of_filter. tauto. Qed.

(** A node without an adjacency entry has no neighbours. *)
Lemma unvisited_missing mazeGraph visited node :
  obj_get mazeGraph node = None → unvisited mazeGraph visited node = [].
Proof. intros H. unfold unvisited, adjacency. by rewrite H. Qed.

Lemma nonempty_length {A} (l : list A) :
  (0 <? length l)%nat = true ↔ l ≠ [].
Proof. destruct l; simpl; split; (done || lia || congruence). Qed.

Lemma insertions_snoc ls l : insertions (ls ++ [l]) = insertions ls ++ inserted l.
Proof.
  unfold insertions. rewrite fmap_app, concat_app. simpl.
  by rewrite app_nil_r.
Qed.

Lemma BFS_enqueue_all ns v q :
  BFS.enqueue_all ns (v, q) = (list_to_set ns ∪ v, q ++ ns).
Proof.
  unfold BFS.enqueue_all. revert v q.
  induction ns as [|n ns IH]; intros v q; simpl.
  - f_equal; [set_solver | by rewrite app_nil_r].
  - rewrite IH. f_equal; [set_solver | by rewrite <- app_assoc].
Qed.

Lemma DFS_push_all ns v s :
  DFS.push_all ns (v, s) = (list_to_set ns ∪ v, s ++ ns).
Proof.
  unfold DFS.push_all. revert v s.
  induction ns as [|n ns IH]; intros v s; simpl.
  - f_equal; [set_solver | by rewrite app_nil_r].
  - rewrite IH. f_equal; [set_solver | by rewrite <- app_assoc].
Qed.

(** ** The breadth-first loop *)

Lemma BFS_loop_ind (P : BFS.State → Prop) mazeGraph :
  (∀ i node st, P st → P (BFS.body mazeGraph i node st)) →
  (∀ st, P st → P (BFS.goal st)) →
  ∀ explored i st, P st → P (BFS.loop mazeGraph i explored st).
Proof.
  intros Hbody Hgoal explored.
  induction explored as [|node rest IH]; intros i st Hst; simpl; [done|].
  case_decide; auto.
Qed.

(** Without the goal in [l1], the loop over [l1 ++ l2] is the loop over
    [l2] started where the loop over [l1] ends. *)
Lemma BFS_loop_app mazeGraph l1 l2 i st :
  "B" ∉ l1 →
  BFS.loop mazeGraph i (l1 ++ l2) st =
  BFS.loop mazeGraph (i + length l1) l2 (BFS.loop mazeGraph i l1 st).
Proof.
  revert i st. induction l1 as [|node l1 IH]; intros i st Hgoal; simpl.
  - by rewrite Nat.add_0_r.
  - apply not_elem_of_cons in Hgoal as [Hne Hgoal].
    destruct (decide (node = "B")) as [->|_]; [done|].
    rewrite IH by done. f_equal. lia.
Qed.

Lemma BFS_inv_queue_nodup st : BFS_inv st → NoDup (BFS.queue st).
Proof.
  intros [Hnd _ [popped Hq] _ _]. rewrite Hq in Hnd.
  by apply NoDup_app in Hnd as (_ & _ & ?).
Qed.

Lemma BFS_inv_queue_visited st x :
  BFS_inv st → x ∈ BFS.queue st → x ∈ BFS.visited st.
Proof.
  intros [_ Hv [popped Hq] _ _] Hx. apply Hv. rewrite Hq.
  apply elem_of_app. by right.
Qed.

Lemma BFS_inv_init : BFS_inv BFS.init.
Proof.
  split; simpl.
  - apply NoDup_singleton.
  - intros x Hx. set_solver.
  - by exists [].
  - apply Forall_singleton, NoDup_singleton.
  - done.
Qed.

Lemma NoDup_tail {A} (l : list A) : NoDup l → NoDup (tail l).
Proof. destruct l; simpl; [done|]. by inversion 1. Qed.

Lemma BFS_inv_dequeue i node st : BFS_inv st → BFS_inv (BFS.dequeue i node st).
Proof.
  intros Hinv. unfold BFS.dequeue. case_match; [|done].
  pose proof (BFS_inv_queue_nodup _ Hinv) as Hndq.
  destruct Hinv as [Hnd Hv [popped Hq] Hs Hl].
  split; simpl; rewrite ?insertions_snoc, ?app_nil_r; try done.
  - destruct (BFS.queue st) as [|x q]; simpl.
    + by exists popped.
    + exists (popped ++ [x]). by rewrite <- app_assoc.
  - apply Forall_app. split; [done|]. apply Forall_singleton.
    by apply NoDup_tail.
  - by rewrite last_snoc.
Qed.

Lemma BFS_inv_expand mazeGraph node st :
  BFS_inv st → BFS_inv (BFS.expand mazeGraph node st).
Proof.
  intros Hinv. unfold BFS.expand. case_match; [|done].
  rewrite BFS_enqueue_all.
  pose proof (BFS_inv_queue_nodup _ Hinv) as Hndq.
  pose proof (λ x, BFS_inv_queue_visited st x Hinv) as Hqv.
  destruct Hinv as [Hnd Hv [popped Hq] Hs Hl].
  set (ns := unvisited mazeGraph (BFS.visited st) node) in *.
  assert (Hfresh : ∀ x, x ∈ ns → x ∉ BFS.visited st)
    by (intros x; apply unvisited_fresh).
  split; simpl; rewrite ?insertions_snoc; simpl.
  - apply NoDup_app. split; [done|]. split; [|apply NoDup_unvisited].
    intros x Hx Hx'. by apply (Hfresh x Hx'), Hv.
  - intros x [Hx|Hx]%elem_of_app; [|set_solver].
    apply elem_of_union. right. by apply Hv.
  - exists popped. by rewrite Hq, <- app_assoc.
  - apply Forall_app. split; [done|]. apply Forall_singleton.
    apply NoDup_app. split; [done|]. split; [|apply NoDup_unvisited].
    intros x Hx Hx'. by apply (Hfresh x Hx'), Hqv.
  - by rewrite last_snoc.
Qed.

Lemma BFS_inv_goal st : BFS_inv st → BFS_inv (BFS.goal st).
Proof.
  intros [Hnd Hv Hq Hs Hl].
  split; simpl; rewrite ?insertions_snoc, ?app_nil_r; done.
Qed.

Lemma BFS_inv_body mazeGraph i node st :
  BFS_inv st → BFS_inv (BFS.body mazeGraph i node st).
Proof. intros. by apply BFS_inv_expand, BFS_inv_dequeue. Qed.

Lemma BFS_inv_loop mazeGraph explored i st :
  BFS_inv st → BFS_inv (BFS.loop mazeGraph i explored st).
Proof.
  apply BFS_loop_ind; auto using BFS_inv_body, BFS_inv_goal.
Qed.

(** ** The depth-first loop *)

Lemma DFS_loop_ind (P : DFS.State → Prop) mazeGraph :
  (∀ i node st, P st → P (DFS.body mazeGraph i node st)) →
  (∀ st, P st → P (DFS.goal st)) →
  ∀ explored i st, P st → P (DFS.loop mazeGraph i explored st).
Proof.
  intros Hbody Hgoal explored.
  induction explored as [|node rest IH]; intros i st Hst; simpl; [done|].
  case_decide; auto.
Qed.

Lemma DFS_inv_stack_nodup st : DFS_inv st → NoDup (DFS.stack st).
Proof. intros [Hnd _ Hs _]. by eapply sublist_NoDup. Qed.

Lemma DFS_inv_stack_visited st x :
  DFS_inv st → x ∈ DFS.stack st → x ∈ DFS.visited st.
Proof.
  intros [_ Hv Hs _] Hx. apply Hv.
  by eapply elem_of_sublist.
Qed.

Lemma DFS_inv_init : DFS_inv DFS.init.
Proof.
  split; simpl.
  - apply NoDup_singleton.
  - intros x Hx. set_solver.
  - done.
  - apply Forall_singleton, NoDup_singleton.
Qed.

Lemma sublist_removelast {A} (l : list A) : sublist (removelast l) l.
Proof.
  destruct l as [|x l _] using rev_ind; [done|].
  rewrite removelast_last. by apply sublist_inserts_r.
Qed.

Lemma DFS_inv_pop i node st : DFS_inv st → DFS_inv (DFS.pop i node st).
Proof.
  intros Hinv. unfold DFS.pop. case_match; [|done].
  pose proof (DFS_inv_stack_nodup _ Hinv) as Hnds.
  destruct Hinv as [Hnd Hv Hsub Hs].
  split; simpl; rewrite ?insertions_snoc, ?app_nil_r; try done.
  - etrans; [apply sublist_removelast | done].
  - apply Forall_app. split; [done|]. apply Forall_singleton.
    exact (sublist_NoDup _ _ Hnds (sublist_removelast _)).
Qed.

Lemma DFS_inv_expand mazeGraph node st :
  DFS_inv st → DFS_inv (DFS.expand mazeGraph node st).
Proof.
  intros Hinv. unfold DFS.expand. case_match; [|done].
  rewrite DFS_push_all.
  pose proof (DFS_inv_stack_nodup _ Hinv) as Hnds.
  pose proof (λ x, DFS_inv_stack_visited st x Hinv) as Hsv.
  destruct Hinv as [Hnd Hv Hsub Hs].
  set (ns := reverse (unvisited mazeGraph (DFS.visited st) node)) in *.
  assert (Hfresh : ∀ x, x ∈ ns → x ∉ DFS.visited st).
  { intros x Hx. unfold ns in Hx. rewrite elem_of_reverse in Hx.
    by eapply unvisited_fresh. }
  assert (Hndns : NoDup ns).
  { unfold ns. rewrite reverse_Permutation. apply NoDup_unvisited. }
  split; simpl; rewrite ?insertions_snoc; simpl.
  - apply NoDup_app. split; [done|]. split; [|done].
    intros x Hx Hx'. by apply (Hfresh x Hx'), Hv.
  - intros x [Hx|Hx]%elem_of_app; [|set_solver].
    apply elem_of_union. right. by apply Hv.
  - by apply sublist_app.
  - apply Forall_app. split; [done|]. apply Forall_singleton.
    apply NoDup_app. split; [done|]. split; [|done].
    intros x Hx Hx'. by apply (Hfresh x Hx'), Hsv.
Qed.

Lemma DFS_inv_goal st : DFS_inv st → DFS_inv (DFS.goal st).
Proof.
  intros [Hnd Hv Hq Hs].
  split; simpl; rewrite ?insertions_snoc, ?app_nil_r; done.
Qed.

Lemma DFS_inv_loop mazeGraph explored i st :
  DFS_inv st → DFS_inv (DFS.loop mazeGraph i explored st).
Proof.
  apply DFS_loop_ind; [|apply DFS_inv_goal].
  intros. by apply DFS_inv_expand, DFS_inv_pop.
Qed.

(** ** C10: no node is inserted twice *)

(** C10. In the breadth-first and the depth-first reconstruction every
    snapshot holds pairwise distinct node ids, and over the whole run
    no node id is put into the queue or the stack more than once: the
    start node and the neighbours the "Add neighbors" lines report are
    pairwise distinct. *)
Theorem bfs_dfs_snapshots_distinct
    (mazeGraph : Graph) (heuristic : gmap string Z) (algorithm : string)
    (explored path : list string) :
  algorithm = "bfs" ∨ algorithm = "dfs" →
  Forall NoDup
    (dataStructureSteps (steps mazeGraph heuristic algorithm explored path))
  ∧ NoDup
      (insertions
         (algorithmSteps (steps mazeGraph heuristic algorithm explored path))).
Proof.
  intros [-> | ->].
  - rewrite steps_bfs. simpl. rewrite !insertions_snoc, !app_nil_r.
    destruct (BFS_inv_loop mazeGraph explored 0 _ BFS_inv_init); done.
  - rewrite steps_dfs. simpl. rewrite !insertions_snoc, !app_nil_r.
    destruct (DFS_inv_loop mazeGraph explored 0 _ DFS_inv_init); done.
Qed.

Lemma bfs_dfs_snapshots_distinct_witness :
  Forall NoDup
    (dataStructureSteps
       (steps graph_ABCD heuristic_ABCD "dfs" ["A"; "C"; "B"; "D"]
          ["A"; "B"; "D"]))
  ∧ NoDup
      (insertions
         (algorithmSteps
            (steps graph_ABCD heuristic_ABCD "dfs" ["A"; "C"; "B"; "D"]
               ["A"; "B"; "D"]))).
Proof.
  apply (bfs_dfs_snapshots_distinct graph_ABCD heuristic_ABCD "dfs"
           ["A"; "C"; "B"; "D"] ["A"; "B"; "D"]).
  right. reflexivity.
Defined.

(** ** C1: the snapshot after a breadth-first expansion *)

Lemma BFS_dequeue_visited i node st :
  BFS.visited (BFS.dequeue i node st) = BFS.visited st.
Proof. unfold BFS.dequeue. by case_match. Qed.

Lemma BFS_expand_fresh mazeGraph node st :
  unvisited mazeGraph (BFS.visited st) node ≠ [] →
  BFS.expand mazeGraph node st =
    let fresh := unvisited mazeGraph (BFS.visited st) node in
    {| BFS.queue := BFS.queue st ++ fresh;
       BFS.visited := list_to_set fresh ∪ BFS.visited st;
       BFS.stepCount := S (BFS.stepCount st);
       BFS.out :=
         snap (BFS.queue st ++ fresh)
           (say (AddToQueue (BFS.stepCount st) node fresh) (BFS.out st)) |}.
Proof.
  intros Hne. unfold BFS.expand.
  apply nonempty_length in Hne. rewrite Hne.
  by rewrite BFS_enqueue_all.
Qed.

Lemma BFS_body_snaps mazeGraph i node st :
  dataStructureSteps (BFS.out st)
    `prefix_of` dataStructureSteps (BFS.out (BFS.body mazeGraph i node st)).
Proof.
  unfold BFS.body, BFS.expand, BFS.dequeue.
  repeat case_match; simpl; try done;
    repeat (etrans; [|apply prefix_app_r; reflexivity]); done.
Qed.

Lemma BFS_loop_snaps mazeGraph explored i st :
  dataStructureSteps (BFS.out st)
    `prefix_of` dataStructureSteps (BFS.out (BFS.loop mazeGraph i explored st)).
Proof.
  revert i st. induction explored as [|node rest IH]; intros i st; simpl.
  - done.
  - case_decide.
    + apply BFS_body_snaps.
    + etrans; [apply BFS_body_snaps | apply IH].
Qed.

Lemma tail_drop {A} (n : nat) (l : list A) : tail (drop n l) = drop (S n) l.
Proof.
  revert l. induction n as [|n IH]; intros [|x l]; simpl; done.
Qed.

Lemma BFS_shifted_init : BFS_shifted 0 BFS.init.
Proof.
  exists 0%nat. simpl. split; [done|]. split; [lia|]. split; [lia | by left].
Qed.

Lemma BFS_shifted_dequeue i node st :
  BFS_shifted (pred i) st → BFS_shifted i (BFS.dequeue i node st).
Proof.
  intros (n & Hq & Hlen & Hle & Hn). unfold BFS.dequeue.
  destruct i as [|i]; cbn [Nat.ltb Nat.leb pred] in *.
  { by exists n. }
  unfold BFS_shifted. cbn [BFS.queue BFS.out algorithmSteps dataStructureSteps
                             say snap].
  rewrite insertions_snoc. cbn [inserted]. rewrite app_nil_r.
  destruct (decide (n = length (insertions (algorithmSteps (BFS.out st)))))
    as [Hfull|Hpart].
  - exists n. rewrite Hq, Hfull, drop_all. cbn [tail].
    split; [done|]. split; [done|]. split; [lia|]. right.
    apply elem_of_app. right. by apply list_elem_of_singleton.
  - exists (S n). rewrite Hq, tail_drop.
    split; [done|]. split; [lia|]. split; [lia|].
    destruct Hn as [->|Hn]; [by left|]. right.
    apply elem_of_app. by left.
Qed.

Lemma BFS_shifted_expand d mazeGraph node st :
  BFS_shifted d st → BFS_shifted d (BFS.expand mazeGraph node st).
Proof.
  intros (n & Hq & Hlen & Hle & Hn). unfold BFS.expand.
  case_match; [|by exists n].
  rewrite BFS_enqueue_all. unfold BFS_shifted.
  cbn [BFS.queue BFS.out algorithmSteps dataStructureSteps say snap fst snd].
  rewrite insertions_snoc. cbn [inserted].
  exists n. rewrite drop_app_le by done. rewrite Hq.
  split; [done|]. split; [rewrite length_app; lia|]. split; [done|].
  destruct Hn as [->|Hn]; [by left|]. right. apply elem_of_app. by left.
Qed.

Lemma BFS_shifted_loop mazeGraph explored i st :
  "B" ∉ explored →
  BFS_shifted (pred i) st →
  BFS_shifted (pred (i + length explored))
    (BFS.loop mazeGraph i explored st).
Proof.
  revert i st. induction explored as [|node rest IH]; intros i st Hgoal Hst.
  - simpl. by rewrite Nat.add_0_r.
  - apply not_elem_of_cons in Hgoal as [Hne Hgoal].
    simpl. rewrite decide_False by done.
    replace (i + S (length rest))%nat with (S i + length rest)%nat by lia.
    apply IH; [done|]. simpl.
    by apply BFS_shifted_expand, BFS_shifted_dequeue.
Qed.

(** On the graph of the scenarios with the goal labelled B and
    [explored = [A,D,C,B]], the snapshot after the expansion of A is
    [A,D,C] and the snapshot after the expansion of D, narrated as
    dequeued just before, is [D,C,B]: each still holds the node that
    is expanded, where the specification has [D,C] and [C,B].  The
    dequeue narrated for D removed A. *)
Lemma bfs_snapshot_holds_expanded_node :
  steps graph_goal_B heuristic_goal_B "bfs" ["A"; "D"; "C"; "B"]
    ["A"; "D"; "B"] =
  mkTrace
    [InitQueue; AddToQueue 1 "A" ["D"; "C"]; DequeueNode 2 "D";
     AddToQueue 3 "D" ["B"]; DequeueNode 4 "C"; DequeueNode 5 "B";
     GoalReached 6;
     FinalPath ["A"; "D"; "B"]; PathLength 3; TotalExplored 4]
    [["A"]; ["A"; "D"; "C"]; ["D"; "C"]; ["D"; "C"; "B"]; ["C"; "B"]; ["B"]]
  ∧ bfs_snapshot_claimed ["A"; "D"; "C"; "B"] 0 ["A"] ["D"; "C"]
    = ["D"; "C"]
  ∧ bfs_snapshot_claimed ["A"; "D"; "C"; "B"] 1 ["A"; "D"; "C"] ["B"]
    = ["C"; "B"]
  ∧ dataStructureSteps
      (steps graph_goal_B heuristic_goal_B "bfs" ["A"; "D"; "C"; "B"]
         ["A"; "D"; "B"]) !! 1%nat
    ≠ Some (bfs_snapshot_claimed ["A"; "D"; "C"; "B"] 0 ["A"] ["D"; "C"])
  ∧ dataStructureSteps
      (steps graph_goal_B heuristic_goal_B "bfs" ["A"; "D"; "C"; "B"]
         ["A"; "D"; "B"]) !! 3%nat
    ≠ Some (bfs_snapshot_claimed ["A"; "D"; "C"; "B"] 1 ["A"; "D"; "C"]
              ["B"]).
Proof.
  vm_compute. do 3 (split; [reflexivity|]). split; discriminate.
Qed.

(** C1 (amended). Take an index [k] of the explored sequence that the
    breadth-first loop reaches, whose node has a neighbour not yet
    visited.  The snapshot emitted after expanding it is the queue
    left by the dequeue step followed by the neighbours of the node
    that were not in the visited set, in key order, and it is kept in
    the final trace.  The queue left by the dequeue step is the
    snapshot emitted last before the iteration, without its first
    element when [k > 0] and whole when [k = 0]: the dequeue removes
    the front of the queue, which need not be the node it narrates.
    In all it is the enqueue history (the start node, then the
    neighbours of the "Add neighbors" lines) without its first [k]
    nodes, or without fewer when a dequeue found the queue empty and a
    snapshot showed the empty queue.  The visited set grows by exactly
    the new neighbours, at the moment they are enqueued, and not by the
    dequeue; every node in the queue is in it. *)
Theorem bfs_snapshot_after_expansion
    (mazeGraph : Graph) (heuristic : gmap string Z)
    (explored path : list string) (k : nat) (node : string) :
  let st := BFS.loop mazeGraph 0 (take k explored) BFS.init in
  let st1 := BFS.dequeue k node st in
  let st2 := BFS.body mazeGraph k node st in
  let fresh :=
    filter (λ n, n ∉ BFS.visited st)
      (Object_keys (adjacency mazeGraph node)) in
  explored !! k = Some node →
  "B" ∉ take k explored →
  fresh ≠ [] →
  dataStructureSteps (BFS.out st2) =
    dataStructureSteps (BFS.out st1) ++ [BFS.queue st1 ++ fresh]
  ∧ dataStructureSteps (BFS.out st2)
      `prefix_of`
      dataStructureSteps (steps mazeGraph heuristic "bfs" explored path)
  ∧ (∃ previous,
       last (dataStructureSteps (BFS.out st)) = Some previous
       ∧ BFS.queue st1 =
         if decide (k = 0%nat) then previous else tail previous)
  ∧ (∃ n : nat,
       BFS.queue st1 = drop n (insertions (algorithmSteps (BFS.out st1)))
       ∧ (n ≤ length (insertions (algorithmSteps (BFS.out st1))))%nat
       ∧ (n ≤ k)%nat
       ∧ (n = k ∨ [] ∈ dataStructureSteps (BFS.out st1)))
  ∧ BFS.visited st1 = BFS.visited st
  ∧ BFS.visited st2 = list_to_set fresh ∪ BFS.visited st
  ∧ (∀ x, x ∈ BFS.queue st2 → x ∈ BFS.visited st2).
Proof.
  intros st st1 st2 fresh Hk Hgoal Hfresh.
  assert (Hinv : BFS_inv st) by apply BFS_inv_loop, BFS_inv_init.
  assert (Hinv1 : BFS_inv st1) by by apply BFS_inv_dequeue.
  assert (Hinv2 : BFS_inv st2) by by apply BFS_inv_body.
  assert (Hv1 : BFS.visited st1 = BFS.visited st)
    by apply BFS_dequeue_visited.
  assert (Hlen : length (take k explored) = k).
  { apply length_take_le. apply lookup_lt_Some in Hk. lia. }
  assert (Hst2 : st2 = BFS.expand mazeGraph node st1) by done.
  rewrite BFS_expand_fresh in Hst2
    by (unfold unvisited; by rewrite Hv1).
  unfold unvisited in Hst2. rewrite Hv1 in Hst2. fold fresh in Hst2.
  simpl in Hst2.
  split; [by rewrite Hst2|].
  split.
  { assert (Hfinal : BFS.loop mazeGraph 0 explored BFS.init =
                     BFS.loop mazeGraph k (node :: drop (S k) explored) st).
    { rewrite <- (take_drop_middle explored k node Hk) at 1.
      rewrite BFS_loop_app by done. by rewrite Hlen. }
    rewrite steps_bfs. simpl. rewrite Hfinal. simpl. fold st2.
    case_decide; [done | apply BFS_loop_snaps]. }
  split.
  { exists (BFS.queue st). split; [apply Hinv|].
    unfold st1, BFS.dequeue. by destruct k. }
  split.
  { assert (Hsh : BFS_shifted (pred k) st).
    { pose proof (BFS_shifted_loop mazeGraph (take k explored) 0 BFS.init
                    Hgoal BFS_shifted_init) as Hsh.
      by rewrite Hlen in Hsh. }
    exact (BFS_shifted_dequeue k node st Hsh). }
  split; [done|].
  split; [by rewrite Hst2|].
  intros x. by apply BFS_inv_queue_visited.
Qed.

Lemma bfs_snapshot_after_expansion_witness :
  let explored := ["A"; "D"; "C"; "B"] in
  let st := BFS.loop graph_goal_B 0 (take 1 explored) BFS.init in
  let st1 := BFS.dequeue 1 "D" st in
  let st2 := BFS.body graph_goal_B 1 "D" st in
  let fresh :=
    filter (λ n, n ∉ BFS.visited st)
      (Object_keys (adjacency graph_goal_B "D")) in
  dataStructureSteps (BFS.out st2) =
    dataStructureSteps (BFS.out st1) ++ [BFS.queue st1 ++ fresh]
  ∧ dataStructureSteps (BFS.out st2)
      `prefix_of`
      dataStructureSteps
        (steps graph_goal_B heuristic_goal_B "bfs" explored ["A"; "D"; "B"])
  ∧ (∃ previous,
       last (dataStructureSteps (BFS.out st)) = Some previous
       ∧ BFS.queue st1 =
         if decide (1%nat = 0%nat) then previous else tail previous)
  ∧ (∃ n : nat,
       BFS.queue st1 = drop n (insertions (algorithmSteps (BFS.out st1)))
       ∧ (n ≤ length (insertions (algorithmSteps (BFS.out st1))))%nat
       ∧ (n ≤ 1)%nat
       ∧ (n = 1%nat ∨ [] ∈ dataStructureSteps (BFS.out st1)))
  ∧ BFS.visited st1 = BFS.visited st
  ∧ BFS.visited st2 = list_to_set fresh ∪ BFS.visited st
  ∧ (∀ x, x ∈ BFS.queue st2 → x ∈ BFS.visited st2).
Proof.
  apply (bfs_snapshot_after_expansion graph_goal_B heuristic_goal_B
           ["A"; "D"; "C"; "B"] ["A"; "D"; "B"] 1 "D").
  - reflexivity.
  - simpl. intros H. apply list_elem_of_singleton in H. discriminate H.
  - vm_compute. discriminate.
Defined.

(** ** C5: missing entries *)

(** An entry without a weight, like a zero weight, costs one. *)
Lemma edgeCost_missing adj neighbor :
  obj_get adj neighbor = None ∨ obj_get adj neighbor = Some None
  ∨ obj_get adj neighbor = Some (Some 0) →
  AStar.edgeCost adj neighbor = 1.
Proof. unfold AStar.edgeCost. by intros [-> | [-> | ->]]. Qed.

(** A neighbour without a heuristic entry is given [h = 0]. *)
Lemma relax_missing_heuristic heuristic adj currentG st neighbor :
  heuristic !! neighbor = None →
  AStar.gScores st !! neighbor = None →
  AStar.out (AStar.relax heuristic adj currentG st neighbor) =
    say (Calculate neighbor (currentG + AStar.edgeCost adj neighbor) 0
           (currentG + AStar.edgeCost adj neighbor + 0))
      (AStar.out st).
Proof. intros Hh Hg. unfold AStar.relax. by rewrite Hh, Hg. Qed.

(** C5. With a heuristic table that has no entry for the start node,
    the A* reconstruction narrates [h=undefined, f=undefined] for it
    and shows [A(f=undefined)] in every snapshot that holds it, where
    the specification has zero; in the same run the neighbours B and C, also
    without an entry, are given [h=0]. *)
Theorem astar_start_without_heuristic :
  steps graph_ABCD ∅ "astar" ["A"] [] =
    mkTrace
      [InitPriorityQueue None; EvaluateNeighbors 1 "A" ["B"; "C"];
       Calculate "B" 1 0 1; Calculate "C" 1 0 1;
       FinalPath []; PathLength 0; TotalExplored 1]
      [["A(f=undefined)"]; ["A(f=undefined)"; "B(f=1)"; "C(f=1)"]]
  ∧ render (InitPriorityQueue None) =
      "Step 0: Initialize priority queue with A (g=0, h=undefined, f=undefined)"
  ∧ render (InitPriorityQueue (Some 0)) =
      "Step 0: Initialize priority queue with A (g=0, h=0, f=0)".
Proof. vm_compute. done. Qed.

(** ** C3: reaching the goal *)

(** C3. On the graph A-{B:1,C:1}, B-{D:1} with [explored = [A,B]] the
    breadth-first and the depth-first reconstruction expand the goal
    node B (an "Add neighbors of B" line and a snapshot with D) before
    the goal line; the A* reconstruction narrates the goal line right
    after the removal, without expanding B. *)
Theorem goal_node_expansion (path : list string) :
  steps graph_ABCD heuristic_ABCD "bfs" ["A"; "B"] path =
    mkTrace
      [InitQueue; AddToQueue 1 "A" ["B"; "C"]; DequeueNode 2 "B";
       AddToQueue 3 "B" ["D"]; GoalReached 4;
       FinalPath path; PathLength (length path); TotalExplored 2]
      [["A"]; ["A"; "B"; "C"]; ["B"; "C"]; ["B"; "C"; "D"]]
  ∧ steps graph_ABCD heuristic_ABCD "dfs" ["A"; "B"] path =
    mkTrace
      [InitStack; AddToStack 1 "A" ["C"; "B"]; PopNode 2 "B";
       AddToStack 3 "B" ["D"]; GoalReached 4;
       FinalPath path; PathLength (length path); TotalExplored 2]
      [["A"]; ["A"; "C"; "B"]; ["A"; "C"]; ["A"; "C"; "D"]]
  ∧ steps graph_ABCD heuristic_ABCD "astar" ["A"; "B"] path =
    mkTrace
      [InitPriorityQueue (Some 2); EvaluateNeighbors 1 "A" ["B"; "C"];
       Calculate "B" 1 1 2; Calculate "C" 1 1 2; RemoveLowest 2 "B";
       GoalReached 3;
       FinalPath path; PathLength (length path); TotalExplored 2]
      [["A(f=2)"]; ["A(f=2)"; "B(f=2)"; "C(f=2)"]; ["B(f=2)"; "C(f=2)"]].
Proof. repeat split; vm_compute; reflexivity. Qed.

(** ** Sorting a sorted array with one more element *)

Section StableSort.
Context {A : Type} (compare : A → A → Z) (key : A → Z) (ok : A → Prop).
Hypothesis compare_key : ∀ a b, ok a → ok b → compare a b = key a - key b.





End StableSort.

(** ** The A* loop *)


























(** ** What the removals take from the priority queue *)









(** ** The removals that are narrated *)






(** ** The snapshots of a run are kept *)





Lemma AStar_loop_app mazeGraph heuristic l1 l2 i st :
  "B" ∉ l1 →
  AStar.loop mazeGraph heuristic i (l1 ++ l2) st =
  AStar.loop mazeGraph heuristic (i + length l1) l2
    (AStar.loop mazeGraph heuristic i l1 st).
Proof.
  revert i st. induction l1 as [|node l1 IH]; intros i st Hgoal; simpl.
  - by rewrite Nat.add_0_r.
  - apply not_elem_of_cons in Hgoal as [Hne Hgoal].
    destruct (decide (node = "B")) as [->|_]; [done|].
    rewrite IH by done. f_equal. lia.
Qed.

(** ** C4: the priority queue *)




(** ** The loop ends at the first goal *)

Lemma goal_lines_say l t :
  goal_lines (say l t) =
    (goal_lines t + if is_goal_line l then 1 else 0)%nat.
Proof.
  unfold goal_lines, say. simpl. rewrite filter_app, length_app.
  f_equal. rewrite filter_cons, filter_nil. by destruct l.
Qed.

Lemma goal_lines_snap s t : goal_lines (snap s t) = goal_lines t.
Proof. done. Qed.

Lemma BFS_loop_goal mazeGraph l1 l2 i st :
  "B" ∉ l1 →
  BFS.loop mazeGraph i (l1 ++ "B" :: l2) st =
  BFS.goal (BFS.body mazeGraph (i + length l1) "B" (BFS.loop mazeGraph i l1 st)).
Proof. intros H. by rewrite BFS_loop_app. Qed.

Lemma DFS_loop_app mazeGraph l1 l2 i st :
  "B" ∉ l1 →
  DFS.loop mazeGraph i (l1 ++ l2) st =
  DFS.loop mazeGraph (i + length l1) l2 (DFS.loop mazeGraph i l1 st).
Proof.
  revert i st. induction l1 as [|node l1 IH]; intros i st Hgoal; simpl.
  - by rewrite Nat.add_0_r.
  - apply not_elem_of_cons in Hgoal as [Hne Hgoal].
    destruct (decide (node = "B")) as [->|_]; [done|].
    rewrite IH by done. f_equal. lia.
Qed.

Lemma DFS_loop_goal mazeGraph l1 l2 i st :
  "B" ∉ l1 →
  DFS.loop mazeGraph i (l1 ++ "B" :: l2) st =
  DFS.goal (DFS.body mazeGraph (i + length l1) "B" (DFS.loop mazeGraph i l1 st)).
Proof. intros H. by rewrite DFS_loop_app. Qed.

(** In A* the goal line follows the removal at once. *)
Lemma AStar_loop_goal mazeGraph heuristic l1 l2 i st :
  "B" ∉ l1 →
  AStar.loop mazeGraph heuristic i (l1 ++ "B" :: l2) st =
  AStar.goal
    (AStar.remove (i + length l1) "B" (AStar.loop mazeGraph heuristic i l1 st)).
Proof. intros H. by rewrite AStar_loop_app. Qed.

Lemma BFS_body_goal_lines mazeGraph i node st :
  goal_lines (BFS.out (BFS.body mazeGraph i node st)) = goal_lines (BFS.out st).
Proof.
  unfold BFS.body, BFS.expand, BFS.dequeue.
  repeat case_match; cbn [BFS.out BFS.stepCount];
    repeat (rewrite goal_lines_snap || rewrite goal_lines_say);
    cbn [is_goal_line]; lia.
Qed.

Lemma DFS_body_goal_lines mazeGraph i node st :
  goal_lines (DFS.out (DFS.body mazeGraph i node st)) = goal_lines (DFS.out st).
Proof.
  unfold DFS.body, DFS.expand, DFS.pop.
  repeat case_match; cbn [DFS.out DFS.stepCount];
    repeat (rewrite goal_lines_snap || rewrite goal_lines_say);
    cbn [is_goal_line]; lia.
Qed.

Lemma AStar_remove_goal_lines i node st :
  goal_lines (AStar.out (AStar.remove i node st)) = goal_lines (AStar.out st).
Proof.
  unfold AStar.remove. case_match; cbn [AStar.out];
    repeat (rewrite goal_lines_snap || rewrite goal_lines_say);
    cbn [is_goal_line]; lia.
Qed.

Lemma AStar_relax_all_goal_lines heuristic adj currentG ns st :
  goal_lines (AStar.out (foldl (AStar.relax heuristic adj currentG) st ns)) =
  goal_lines (AStar.out st).
Proof.
  revert st. induction ns as [|n ns IH]; intros st; simpl; [done|].
  rewrite IH. unfold AStar.relax. case_match; cbn [AStar.out]; [|done].
  rewrite goal_lines_say. cbn [is_goal_line]. lia.
Qed.

Lemma AStar_evaluate_goal_lines mazeGraph heuristic currentG node st :
  goal_lines (AStar.out (AStar.evaluate mazeGraph heuristic currentG node st)) =
  goal_lines (AStar.out st).
Proof.
  unfold AStar.evaluate. case_match; cbn [AStar.out]; [|done].
  rewrite goal_lines_snap, AStar_relax_all_goal_lines. cbn [AStar.out].
  rewrite goal_lines_say. cbn [is_goal_line]. lia.
Qed.

Lemma reaches_goal_cons node rest :
  reaches_goal (node :: rest) =
    if decide (node = "B") then 1%nat else reaches_goal rest.
Proof.
  unfold reaches_goal. destruct (decide (node = "B")) as [->|Hne].
  - rewrite decide_True; [done|]. apply elem_of_cons. by left.
  - destruct (decide ("B" ∈ rest)).
    + rewrite decide_True; [done|]. apply elem_of_cons. by right.
    + rewrite decide_False; [done|]. apply not_elem_of_cons. split; congruence.
Qed.

(** Each policy narrates the goal once when the explored sequence
    holds it, and never otherwise. *)
Lemma goal_lines_steps mazeGraph heuristic algorithm explored path :
  algorithm = "bfs" ∨ algorithm = "dfs" ∨ algorithm = "astar" →
  goal_lines (steps mazeGraph heuristic algorithm explored path) =
  reaches_goal explored.
Proof.
  intros [-> | [-> | ->]].
  - rewrite steps_bfs, !goal_lines_say. simpl.
    transitivity (goal_lines (BFS.out BFS.init) + reaches_goal explored)%nat;
      [|done].
    rewrite !Nat.add_0_r.
    generalize BFS.init, 0%nat. induction explored as [|node rest IH];
      intros st i; rewrite ?reaches_goal_cons; simpl.
    + unfold reaches_goal. rewrite decide_False by apply not_elem_of_nil. lia.
    + case_decide; simpl.
      * by rewrite goal_lines_say, BFS_body_goal_lines.
      * by rewrite IH, BFS_body_goal_lines.
  - rewrite steps_dfs, !goal_lines_say. simpl.
    transitivity (goal_lines (DFS.out DFS.init) + reaches_goal explored)%nat;
      [|done].
    rewrite !Nat.add_0_r.
    generalize DFS.init, 0%nat. induction explored as [|node rest IH];
      intros st i; rewrite ?reaches_goal_cons; simpl.
    + unfold reaches_goal. rewrite decide_False by apply not_elem_of_nil. lia.
    + case_decide; simpl.
      * by rewrite goal_lines_say, DFS_body_goal_lines.
      * by rewrite IH, DFS_body_goal_lines.
  - rewrite steps_astar, !goal_lines_say. simpl.
    transitivity
      (goal_lines (AStar.out (AStar.init heuristic)) + reaches_goal explored)%nat;
      [|done].
    rewrite !Nat.add_0_r.
    generalize (AStar.init heuristic), 0%nat.
    induction explored as [|node rest IH];
      intros st i; rewrite ?reaches_goal_cons; simpl.
    + unfold reaches_goal. rewrite decide_False by apply not_elem_of_nil. lia.
    + case_decide; simpl.
      * by rewrite goal_lines_say, AStar_remove_goal_lines.
      * by rewrite IH, AStar_evaluate_goal_lines, AStar_remove_goal_lines.
Qed.

(** * Further properties of the generator *)

(** ** Step numbers *)

Lemma step_numbers_snoc ls l :
  step_numbers (ls ++ [l]) =
    step_numbers ls ++ match step_number l with Some n => [n] | None => [] end.
Proof.
  unfold step_numbers. rewrite omap_app. simpl. by destruct (step_number l).
Qed.

Lemma seq_snoc (n : nat) : seq 0 n ++ [n] = seq 0 (S n).
Proof. by rewrite seq_S. Qed.

Lemma BFS_body_step_numbers mazeGraph i node st :
  step_numbers (algorithmSteps (BFS.out st)) = seq 0 (BFS.stepCount st) →
  step_numbers (algorithmSteps (BFS.out (BFS.body mazeGraph i node st))) =
    seq 0 (BFS.stepCount (BFS.body mazeGraph i node st)).
Proof.
  intros H. unfold BFS.body, BFS.expand, BFS.dequeue.
  repeat case_match; simpl; rewrite ?step_numbers_snoc; simpl;
    rewrite ?H, ?seq_snoc; done.
Qed.

Lemma DFS_body_step_numbers mazeGraph i node st :
  step_numbers (algorithmSteps (DFS.out st)) = seq 0 (DFS.stepCount st) →
  step_numbers (algorithmSteps (DFS.out (DFS.body mazeGraph i node st))) =
    seq 0 (DFS.stepCount (DFS.body mazeGraph i node st)).
Proof.
  intros H. unfold DFS.body, DFS.expand, DFS.pop.
  repeat case_match; simpl; rewrite ?step_numbers_snoc; simpl;
    rewrite ?H, ?seq_snoc; done.
Qed.

Lemma AStar_remove_step_numbers i node st :
  step_numbers (algorithmSteps (AStar.out st)) = seq 0 (AStar.stepCount st) →
  step_numbers (algorithmSteps (AStar.out (AStar.remove i node st))) =
    seq 0 (AStar.stepCount (AStar.remove i node st)).
Proof.
  intros H. unfold AStar.remove.
  case_match; simpl; rewrite ?step_numbers_snoc; simpl;
    rewrite ?H, ?seq_snoc; done.
Qed.

Lemma AStar_relax_all_step_numbers heuristic adj currentG ns st :
  step_numbers
    (algorithmSteps
       (AStar.out (foldl (AStar.relax heuristic adj currentG) st ns))) =
    step_numbers (algorithmSteps (AStar.out st))
  ∧ AStar.stepCount (foldl (AStar.relax heuristic adj currentG) st ns) =
    AStar.stepCount st.
Proof.
  revert st. induction ns as [|n ns IH]; intros st; simpl; [done|].
  destruct (IH (AStar.relax heuristic adj currentG st n)) as [-> ->].
  unfold AStar.relax. case_match; simpl; [|done].
  by rewrite step_numbers_snoc, app_nil_r.
Qed.

Lemma AStar_evaluate_step_numbers mazeGraph heuristic currentG node st :
  step_numbers (algorithmSteps (AStar.out st)) = seq 0 (AStar.stepCount st) →
  step_numbers
    (algorithmSteps
       (AStar.out (AStar.evaluate mazeGraph heuristic currentG node st))) =
    seq 0 (AStar.stepCount
             (AStar.evaluate mazeGraph heuristic currentG node st)).
Proof.
  intros H. unfold AStar.evaluate. case_match; simpl; [|done].
  match goal with
  | |- context [foldl ?f ?s ?l] =>
      destruct (AStar_relax_all_step_numbers heuristic
                  (adjacency mazeGraph node) currentG l s) as [-> ->]
  end.
  simpl. by rewrite step_numbers_snoc, H, seq_snoc.
Qed.

Lemma step_numbers_summary (explored path : list string) t k :
  step_numbers (algorithmSteps t) = seq 0 k →
  step_numbers
    (algorithmSteps
       (say (TotalExplored (length explored))
          (say (PathLength (length path)) (say (FinalPath path) t)))) =
    seq 0 k.
Proof.
  intros H. simpl. by rewrite !step_numbers_snoc, H, !app_nil_r.
Qed.

Lemma BFS_loop_step_numbers mazeGraph explored i st :
  step_numbers (algorithmSteps (BFS.out st)) = seq 0 (BFS.stepCount st) →
  ∃ k, step_numbers
         (algorithmSteps (BFS.out (BFS.loop mazeGraph i explored st))) =
       seq 0 k.
Proof.
  revert i st. induction explored as [|node rest IH]; intros i st Hst;
    simpl; [eauto|].
  apply (BFS_body_step_numbers mazeGraph i node) in Hst.
  case_decide; [|eauto].
  eexists. simpl. by rewrite step_numbers_snoc, Hst, seq_snoc.
Qed.

Lemma DFS_loop_step_numbers mazeGraph explored i st :
  step_numbers (algorithmSteps (DFS.out st)) = seq 0 (DFS.stepCount st) →
  ∃ k, step_numbers
         (algorithmSteps (DFS.out (DFS.loop mazeGraph i explored st))) =
       seq 0 k.
Proof.
  revert i st. induction explored as [|node rest IH]; intros i st Hst;
    simpl; [eauto|].
  apply (DFS_body_step_numbers mazeGraph i node) in Hst.
  case_decide; [|eauto].
  eexists. simpl. by rewrite step_numbers_snoc, Hst, seq_snoc.
Qed.

Lemma AStar_loop_step_numbers mazeGraph heuristic explored i st :
  step_numbers (algorithmSteps (AStar.out st)) = seq 0 (AStar.stepCount st) →
  ∃ k, step_numbers
         (algorithmSteps
            (AStar.out (AStar.loop mazeGraph heuristic i explored st))) =
       seq 0 k.
Proof.
  revert i st. induction explored as [|node rest IH]; intros i st Hst;
    simpl; [eauto|].
  apply (AStar_remove_step_numbers i node) in Hst.
  case_decide.
  - eexists. simpl. by rewrite step_numbers_snoc, Hst, seq_snoc.
  - eapply IH, AStar_evaluate_step_numbers, Hst.
Qed.

(** X1. Whatever the algorithm kind and the explored sequence, the
    numbered lines of the narration carry the numbers 0, 1, 2, ... in
    order, without gap or repetition. *)
Theorem step_numbers_consecutive
    (mazeGraph : Graph) (heuristic : gmap string Z) (algorithm : string)
    (explored path : list string) :
  step_numbers
    (algorithmSteps (steps mazeGraph heuristic algorithm explored path)) =
  seq 0
    (length
       (step_numbers
          (algorithmSteps (steps mazeGraph heuristic algorithm explored path)))).
Proof.
  assert (∃ k, step_numbers
                 (algorithmSteps
                    (steps mazeGraph heuristic algorithm explored path)) =
               seq 0 k) as [k Hk]; [|by rewrite Hk, length_seq].
  unfold steps, generateAlgorithmSteps.
  repeat case_decide; rewrite summary_Some.
  - destruct (BFS_loop_step_numbers mazeGraph explored 0 BFS.init eq_refl)
      as [k Hk].
    exists k. by apply step_numbers_summary.
  - destruct (DFS_loop_step_numbers mazeGraph explored 0 DFS.init eq_refl)
      as [k Hk].
    exists k. by apply step_numbers_summary.
  - destruct (AStar_loop_step_numbers mazeGraph heuristic explored 0
                (AStar.init heuristic) eq_refl) as [k Hk].
    exists k. by apply step_numbers_summary.
  - by exists 0%nat.
Qed.

(** ** Lines and snapshots *)

Lemma aligned_say l t : aligned t → aligned (say l t).
Proof.
  intros H i s Hs. destruct (H i s Hs) as (l' & Hl' & Hn).
  exists l'. split; [|done]. simpl. by apply lookup_app_l_Some.
Qed.

Lemma aligned_numbered (t : Trace) (n : nat) : numbered t n → aligned t.
Proof.
  intros [Hlines Hlen] i s Hs.
  assert (Hi : (i < n)%nat) by (apply lookup_lt_Some in Hs; lia).
  assert (Hl : (step_number <$> algorithmSteps t) !! i = Some (Some i)).
  { rewrite Hlines, list_lookup_fmap, lookup_seq_lt by done. done. }
  rewrite list_lookup_fmap in Hl.
  destruct (algorithmSteps t !! i) as [l|]; [|done].
  exists l. split; [done|]. by injection Hl.
Qed.

Lemma numbered_step (l : Line) s t (n : nat) :
  numbered t n → step_number l = Some n → numbered (snap s (say l t)) (S n).
Proof.
  intros [Hls Hlen] Hl. split.
  - unfold snap, say. cbn [algorithmSteps].
    rewrite fmap_app, Hls, seq_S, fmap_app. cbn [fmap list_fmap].
    by rewrite Hl.
  - unfold snap, say. cbn [dataStructureSteps]. rewrite length_app.
    simpl. lia.
Qed.

Lemma BFS_body_numbered mazeGraph i node st :
  numbered (BFS.out st) (BFS.stepCount st) →
  numbered (BFS.out (BFS.body mazeGraph i node st))
    (BFS.stepCount (BFS.body mazeGraph i node st)).
Proof.
  intros H. unfold BFS.body, BFS.expand, BFS.dequeue.
  repeat case_match; simpl; repeat (apply numbered_step; [|done]); done.
Qed.

Lemma DFS_body_numbered mazeGraph i node st :
  numbered (DFS.out st) (DFS.stepCount st) →
  numbered (DFS.out (DFS.body mazeGraph i node st))
    (DFS.stepCount (DFS.body mazeGraph i node st)).
Proof.
  intros H. unfold DFS.body, DFS.expand, DFS.pop.
  repeat case_match; simpl; repeat (apply numbered_step; [|done]); done.
Qed.

Lemma BFS_loop_aligned mazeGraph explored i st :
  numbered (BFS.out st) (BFS.stepCount st) →
  aligned (BFS.out (BFS.loop mazeGraph i explored st)).
Proof.
  revert i st. induction explored as [|node rest IH]; intros i st H; simpl.
  - by eapply aligned_numbered.
  - apply (BFS_body_numbered mazeGraph i node) in H.
    case_decide; [|by apply IH].
    apply aligned_say. by eapply aligned_numbered.
Qed.

Lemma DFS_loop_aligned mazeGraph explored i st :
  numbered (DFS.out st) (DFS.stepCount st) →
  aligned (DFS.out (DFS.loop mazeGraph i explored st)).
Proof.
  revert i st. induction explored as [|node rest IH]; intros i st H; simpl.
  - by eapply aligned_numbered.
  - apply (DFS_body_numbered mazeGraph i node) in H.
    case_decide; [|by apply IH].
    apply aligned_say. by eapply aligned_numbered.
Qed.

(** X2. In the breadth-first and the depth-first reconstruction the
    snapshot at index [i] belongs to the narration line at the same
    index, and that line carries the step number [i]: the two arrays,
    which the page reads with one index, run in step. *)
Theorem bfs_dfs_snapshots_aligned
    (mazeGraph : Graph) (heuristic : gmap string Z) (algorithm : string)
    (explored path : list string) :
  algorithm = "bfs" ∨ algorithm = "dfs" →
  aligned (steps mazeGraph heuristic algorithm explored path).
Proof.
  intros [-> | ->].
  - rewrite steps_bfs. do 3 apply aligned_say.
    by apply BFS_loop_aligned.
  - rewrite steps_dfs. do 3 apply aligned_say.
    by apply DFS_loop_aligned.
Qed.

Lemma bfs_dfs_snapshots_aligned_witness :
  aligned
    (steps graph_ABCD heuristic_ABCD "bfs" ["A"; "C"; "B"] ["A"; "B"]).
Proof.
  apply (bfs_dfs_snapshots_aligned graph_ABCD heuristic_ABCD "bfs"
           ["A"; "C"; "B"] ["A"; "B"]).
  left. reflexivity.
Defined.

Lemma calculate_lines_say l t :
  calculate_lines (say l t) =
    (calculate_lines t + if is_calculate l then 1 else 0)%nat.
Proof.
  unfold calculate_lines, say. simpl. rewrite filter_app, length_app.
  f_equal. rewrite filter_cons, filter_nil. by destruct l.
Qed.

Lemma balanced_but_say_snap d l s t :
  is_calculate l = false → is_goal_line l = false →
  balanced_but d t → balanced_but d (snap s (say l t)).
Proof.
  unfold balanced_but. intros Hc Hg H.
  change (goal_lines (snap s (say l t))) with (goal_lines (say l t)).
  change (calculate_lines (snap s (say l t))) with (calculate_lines (say l t)).
  rewrite goal_lines_say, calculate_lines_say, Hc, Hg. simpl.
  rewrite !length_app. simpl. lia.
Qed.

Lemma balanced_but_say d l t :
  (is_calculate l = true ∧ is_goal_line l = false)
  ∨ (is_calculate l = false ∧ is_goal_line l = true) →
  balanced_but d t → balanced_but d (say l t).
Proof.
  unfold balanced_but. intros Hl H.
  rewrite goal_lines_say, calculate_lines_say. simpl. rewrite length_app.
  simpl. destruct Hl as [[-> ->] | [-> ->]]; lia.
Qed.

(** A line that waits for its snapshot, and the snapshot that comes. *)
Lemma balanced_but_wait d l t :
  is_calculate l = false → is_goal_line l = false →
  balanced_but d t → balanced_but (S d) (say l t).
Proof.
  unfold balanced_but. intros Hc Hg H.
  rewrite goal_lines_say, calculate_lines_say, Hc, Hg. simpl.
  rewrite length_app. simpl. lia.
Qed.

Lemma balanced_but_snap d s t :
  balanced_but (S d) t → balanced_but d (snap s t).
Proof.
  unfold balanced_but. intros H.
  change (goal_lines (snap s t)) with (goal_lines t).
  change (calculate_lines (snap s t)) with (calculate_lines t).
  simpl. rewrite length_app. simpl. lia.
Qed.

Lemma BFS_loop_balanced mazeGraph explored i st :
  balanced_but 0 (BFS.out st) →
  balanced_but 0 (BFS.out (BFS.loop mazeGraph i explored st)).
Proof.
  apply (BFS_loop_ind (λ s, balanced_but 0 (BFS.out s))).
  - intros i' node st' H. unfold BFS.body, BFS.expand, BFS.dequeue.
    repeat case_match; simpl; repeat apply balanced_but_say_snap; done.
  - intros st' H. simpl. apply balanced_but_say; [by right | done].
Qed.

Lemma DFS_loop_balanced mazeGraph explored i st :
  balanced_but 0 (DFS.out st) →
  balanced_but 0 (DFS.out (DFS.loop mazeGraph i explored st)).
Proof.
  apply (DFS_loop_ind (λ s, balanced_but 0 (DFS.out s))).
  - intros i' node st' H. unfold DFS.body, DFS.expand, DFS.pop.
    repeat case_match; simpl; repeat apply balanced_but_say_snap; done.
  - intros st' H. simpl. apply balanced_but_say; [by right | done].
Qed.

Lemma AStar_relax_all_balanced d heuristic adj currentG ns st :
  balanced_but d (AStar.out st) →
  balanced_but d
    (AStar.out (foldl (AStar.relax heuristic adj currentG) st ns)).
Proof.
  revert st. induction ns as [|n ns IH]; intros st H; simpl; [done|].
  apply IH. unfold AStar.relax. case_match; simpl; [|done].
  apply balanced_but_say; [by left | done].
Qed.

Lemma AStar_loop_balanced mazeGraph heuristic explored i st :
  balanced_but 0 (AStar.out st) →
  balanced_but 0 (AStar.out (AStar.loop mazeGraph heuristic i explored st)).
Proof.
  revert i st. induction explored as [|node rest IH]; intros i st H;
    simpl; [done|].
  assert (Hr : balanced_but 0 (AStar.out (AStar.remove i node st))).
  { unfold AStar.remove. case_match; simpl; [|done].
    by apply balanced_but_say_snap. }
  case_decide.
  - simpl. apply balanced_but_say; [by right | done].
  - apply IH. unfold AStar.evaluate. case_match; simpl; [|done].
    apply balanced_but_snap, AStar_relax_all_balanced. simpl.
    by apply balanced_but_wait.
Qed.

(** X3. For every algorithm kind the narration has as many lines as
    there are snapshots, "Calculate" lines and goal lines, and three
    summary lines more: in A* the line index runs ahead of the snapshot
    index by the number of "Calculate" lines before it. *)
Theorem lines_and_snapshots_count
    (mazeGraph : Graph) (heuristic : gmap string Z) (algorithm : string)
    (explored path : list string) :
  balanced_but 3 (steps mazeGraph heuristic algorithm explored path).
Proof.
  assert (Hsum : ∀ t, balanced_but 0 t →
            balanced_but 3
              (say (TotalExplored (length explored))
                 (say (PathLength (length path)) (say (FinalPath path) t)))).
  { intros t. unfold balanced_but.
    rewrite !goal_lines_say, !calculate_lines_say. simpl.
    rewrite !length_app. simpl. lia. }
  unfold steps, generateAlgorithmSteps.
  repeat case_decide; rewrite summary_Some; apply Hsum.
  - by apply BFS_loop_balanced.
  - by apply DFS_loop_balanced.
  - by apply AStar_loop_balanced.
  - done.
Qed.

(** ** Visited nodes are the inserted nodes *)

Lemma BFS_loop_visited mazeGraph explored i st :
  BFS.visited st = list_to_set (insertions (algorithmSteps (BFS.out st))) →
  BFS.visited (BFS.loop mazeGraph i explored st) =
    list_to_set
      (insertions (algorithmSteps (BFS.out (BFS.loop mazeGraph i explored st)))).
Proof.
  apply (BFS_loop_ind
           (λ s, BFS.visited s =
                 list_to_set (insertions (algorithmSteps (BFS.out s))))).
  - intros i' node st' H. unfold BFS.body, BFS.expand.
    rewrite BFS_enqueue_all.
    assert (Hd : BFS.visited (BFS.dequeue i' node st') =
                 list_to_set
                   (insertions
                      (algorithmSteps (BFS.out (BFS.dequeue i' node st'))))).
    { unfold BFS.dequeue. case_match; simpl; [|done].
      by rewrite insertions_snoc, app_nil_r. }
    case_match; simpl; [|done].
    rewrite insertions_snoc, list_to_set_app_L, <- Hd. simpl. set_solver.
  - intros st' H. simpl. by rewrite insertions_snoc, app_nil_r.
Qed.

Lemma DFS_loop_visited mazeGraph explored i st :
  DFS.visited st = list_to_set (insertions (algorithmSteps (DFS.out st))) →
  DFS.visited (DFS.loop mazeGraph i explored st) =
    list_to_set
      (insertions (algorithmSteps (DFS.out (DFS.loop mazeGraph i explored st)))).
Proof.
  apply (DFS_loop_ind
           (λ s, DFS.visited s =
                 list_to_set (insertions (algorithmSteps (DFS.out s))))).
  - intros i' node st' H. unfold DFS.body, DFS.expand.
    rewrite DFS_push_all.
    assert (Hd : DFS.visited (DFS.pop i' node st') =
                 list_to_set
                   (insertions
                      (algorithmSteps (DFS.out (DFS.pop i' node st'))))).
    { unfold DFS.pop. case_match; simpl; [|done].
      by rewrite insertions_snoc, app_nil_r. }
    case_match; simpl; [|done].
    rewrite insertions_snoc, list_to_set_app_L, <- Hd. simpl. set_solver.
  - intros st' H. simpl. by rewrite insertions_snoc, app_nil_r.
Qed.

(** X4. At the end of the breadth-first and of the depth-first loop a
    node is in the visited set exactly when it was put into the queue
    or the stack: the start node and the neighbours of the "Add
    neighbors" lines.  An explored node that was never inserted is not
    marked. *)
Theorem bfs_dfs_visited_are_inserted
    (mazeGraph : Graph) (explored : list string) (x : string) :
  (x ∈ BFS.visited (BFS.loop mazeGraph 0 explored BFS.init) ↔
   x ∈ insertions
         (algorithmSteps (BFS.out (BFS.loop mazeGraph 0 explored BFS.init))))
  ∧ (x ∈ DFS.visited (DFS.loop mazeGraph 0 explored DFS.init) ↔
     x ∈ insertions
           (algorithmSteps
              (DFS.out (DFS.loop mazeGraph 0 explored DFS.init)))).
Proof.
  split.
  - rewrite (BFS_loop_visited mazeGraph explored 0 BFS.init).
    + apply elem_of_list_to_set.
    + simpl. set_solver.
  - rewrite (DFS_loop_visited mazeGraph explored 0 DFS.init).
    + apply elem_of_list_to_set.
    + simpl. set_solver.
Qed.

(** ** The top of the stack *)

Lemma DFS_pop_visited i node st :
  DFS.visited (DFS.pop i node st) = DFS.visited st.
Proof. unfold DFS.pop. by case_match. Qed.

Lemma DFS_body_snaps mazeGraph i node st :
  dataStructureSteps (DFS.out st)
    `prefix_of` dataStructureSteps (DFS.out (DFS.body mazeGraph i node st)).
Proof.
  unfold DFS.body, DFS.expand, DFS.pop.
  repeat case_match; simpl; try done;
    repeat (etrans; [|apply prefix_app_r; reflexivity]); done.
Qed.

Lemma DFS_loop_snaps mazeGraph explored i st :
  dataStructureSteps (DFS.out st)
    `prefix_of` dataStructureSteps (DFS.out (DFS.loop mazeGraph i explored st)).
Proof.
  revert i st. induction explored as [|node rest IH]; intros i st; simpl.
  - done.
  - case_decide.
    + apply DFS_body_snaps.
    + etrans; [apply DFS_body_snaps | apply IH].
Qed.

(** X5. Take an index [k] of the explored sequence that the depth-first
    loop reaches, whose node has a neighbour not yet visited.  After
    its expansion the unvisited neighbours lie on the stack in reverse
    key order above what the pop left, so the top of the stack, the
    element the next pop removes, is the first unvisited neighbour in
    key order; the snapshot emitted shows that stack and is kept in the
    final trace. *)
Theorem dfs_top_after_expansion
    (mazeGraph : Graph) (heuristic : gmap string Z)
    (explored path : list string) (k : nat) (node : string) :
  let st := DFS.loop mazeGraph 0 (take k explored) DFS.init in
  let st1 := DFS.pop k node st in
  let st2 := DFS.body mazeGraph k node st in
  let fresh :=
    filter (λ n, n ∉ DFS.visited st)
      (Object_keys (adjacency mazeGraph node)) in
  explored !! k = Some node →
  "B" ∉ take k explored →
  fresh ≠ [] →
  DFS.stack st2 = DFS.stack st1 ++ reverse fresh
  ∧ last (DFS.stack st2) = head fresh
  ∧ removelast (DFS.stack st2) = DFS.stack st1 ++ reverse (tail fresh)
  ∧ last (dataStructureSteps (DFS.out st2)) = Some (DFS.stack st2)
  ∧ dataStructureSteps (DFS.out st2)
      `prefix_of`
      dataStructureSteps (steps mazeGraph heuristic "dfs" explored path).
Proof.
  intros st st1 st2 fresh Hk Hgoal Hfresh.
  assert (Hv1 : DFS.visited st1 = DFS.visited st) by apply DFS_pop_visited.
  assert (Hne : (0 <? length (reverse fresh))%nat = true).
  { apply nonempty_length. intros Hr. apply Hfresh.
    apply (f_equal reverse) in Hr. by rewrite reverse_involutive in Hr. }
  assert (Hst2 : DFS.stack st2 = DFS.stack st1 ++ reverse fresh
                 ∧ dataStructureSteps (DFS.out st2) =
                   dataStructureSteps (DFS.out st1)
                     ++ [DFS.stack st1 ++ reverse fresh]).
  { unfold st2, DFS.body, DFS.expand. fold st1. unfold unvisited.
    rewrite Hv1. fold fresh. rewrite Hne, DFS_push_all. done. }
  destruct Hst2 as [Hstack Hsnaps].
  destruct fresh as [|n fresh'] eqn:Hf; [done|].
  split; [done|]. split; [|split; [|split]].
  - rewrite Hstack, reverse_cons, app_assoc. apply last_snoc.
  - rewrite Hstack, reverse_cons, app_assoc. apply removelast_last.
  - rewrite Hsnaps, Hstack. apply last_snoc.
  - assert (Hlen : length (take k explored) = k).
    { apply length_take_le. apply lookup_lt_Some in Hk. lia. }
    assert (Hfinal : DFS.loop mazeGraph 0 explored DFS.init =
                     DFS.loop mazeGraph k (node :: drop (S k) explored) st).
    { rewrite <- (take_drop_middle explored k node Hk) at 1.
      rewrite DFS_loop_app by done. by rewrite Hlen. }
    rewrite steps_dfs. simpl. rewrite Hfinal. simpl. fold st2.
    case_decide; [done | apply DFS_loop_snaps].
Qed.

Lemma dfs_top_after_expansion_witness :
  let explored := ["A"; "C"; "B"; "D"] in
  let st := DFS.loop graph_ABCD 0 (take 0 explored) DFS.init in
  let st1 := DFS.pop 0 "A" st in
  let st2 := DFS.body graph_ABCD 0 "A" st in
  let fresh :=
    filter (λ n, n ∉ DFS.visited st)
      (Object_keys (adjacency graph_ABCD "A")) in
  DFS.stack st2 = DFS.stack st1 ++ reverse fresh
  ∧ last (DFS.stack st2) = head fresh
  ∧ removelast (DFS.stack st2) = DFS.stack st1 ++ reverse (tail fresh)
  ∧ last (dataStructureSteps (DFS.out st2)) = Some (DFS.stack st2)
  ∧ dataStructureSteps (DFS.out st2)
      `prefix_of`
      dataStructureSteps
        (steps graph_ABCD heuristic_ABCD "dfs" explored ["A"; "B"; "D"]).
Proof.
  apply (dfs_top_after_expansion graph_ABCD heuristic_ABCD
           ["A"; "C"; "B"; "D"] ["A"; "B"; "D"] 0 "A").
  - reflexivity.
  - simpl. apply not_elem_of_nil.
  - vm_compute. discriminate.
Defined.

(** ** Explored nodes after the goal *)

Lemma summary_lines (explored path : list string) t :
  algorithmSteps
    (say (TotalExplored (length explored))
       (say (PathLength (length path)) (say (FinalPath path) t))) =
  (algorithmSteps t ++ [FinalPath path; PathLength (length path)])
    ++ [TotalExplored (length explored)].
Proof. simpl. by rewrite <- !app_assoc. Qed.

(** X6. Whatever the algorithm kind, the explored nodes after the first
    goal node B change nothing in the trace but the count of the last
    summary line: the snapshots are those of the sequence cut after the
    goal, and so are all narration lines before the last. *)
Theorem explored_after_goal_ignored
    (mazeGraph : Graph) (heuristic : gmap string Z) (algorithm : string)
    (before after path : list string) :
  "B" ∉ before →
  dataStructureSteps
    (steps mazeGraph heuristic algorithm (before ++ "B" :: after) path) =
  dataStructureSteps
    (steps mazeGraph heuristic algorithm (before ++ ["B"]) path)
  ∧ ∃ lines,
      algorithmSteps
        (steps mazeGraph heuristic algorithm (before ++ "B" :: after) path) =
      lines ++ [TotalExplored (length before + 1 + length after)]
      ∧ algorithmSteps
          (steps mazeGraph heuristic algorithm (before ++ ["B"]) path) =
        lines ++ [TotalExplored (length before + 1)].
Proof.
  intros Hgoal.
  assert (Hlen1 : length (before ++ "B" :: after) =
                  (length before + 1 + length after)%nat)
    by (rewrite length_app; simpl; lia).
  assert (Hlen2 : length (before ++ ["B"]) = (length before + 1)%nat)
    by (rewrite length_app; simpl; lia).
  unfold steps, generateAlgorithmSteps.
  repeat case_decide; rewrite !summary_Some, !summary_lines, Hlen1, Hlen2.
  - rewrite !BFS_loop_goal by done. split; [done | by eexists].
  - rewrite !DFS_loop_goal by done. split; [done | by eexists].
  - rewrite !AStar_loop_goal by done. split; [done | by eexists].
  - split; [done | by eexists].
Qed.

Lemma explored_after_goal_ignored_witness :
  dataStructureSteps
    (steps graph_ABCD heuristic_ABCD "astar" (["A"] ++ "B" :: ["C"; "D"])
       ["A"; "B"]) =
  dataStructureSteps
    (steps graph_ABCD heuristic_ABCD "astar" (["A"] ++ ["B"]) ["A"; "B"])
  ∧ ∃ lines,
      algorithmSteps
        (steps graph_ABCD heuristic_ABCD "astar"
           (["A"] ++ "B" :: ["C"; "D"]) ["A"; "B"]) =
      lines ++ [TotalExplored (length ["A"] + 1 + length ["C"; "D"])]
      ∧ algorithmSteps
          (steps graph_ABCD heuristic_ABCD "astar" (["A"] ++ ["B"])
             ["A"; "B"]) =
        lines ++ [TotalExplored (length ["A"] + 1)].
Proof.
  apply (explored_after_goal_ignored graph_ABCD heuristic_ABCD "astar"
           ["A"] ["C"; "D"] ["A"; "B"]).
  intros H. apply list_elem_of_singleton in H. discriminate H.
Defined.

(** ** The table of g-values *)

Lemma g_history_snoc node ls l :
  g_history node (ls ++ [l]) = g_history node ls ++ g_record node l.
Proof.
  unfold g_history. rewrite fmap_app, concat_app. simpl.
  by rewrite app_nil_r.
Qed.

Lemma g_recorded_say l st st' :
  (∀ node, g_record node l = []) →
  AStar.gScores st' = AStar.gScores st →
  algorithmSteps (AStar.out st') = algorithmSteps (AStar.out st) ++ [l] →
  g_recorded st → g_recorded st'.
Proof.
  intros Hl Hg Hs H node. rewrite Hg, Hs, g_history_snoc, Hl, app_nil_r.
  apply H.
Qed.

Lemma decreasing_snoc (l : list Z) (x : Z) :
  StronglySorted (λ a b, b < a) l →
  (∀ y, last l = Some y → x < y) →
  StronglySorted (λ a b, b < a) (l ++ [x]).
Proof.
  intros Hs Hlast. apply StronglySorted_app_2.
  - intros a b Ha Hb. apply list_elem_of_singleton in Hb as ->.
    destruct l as [|z l _] using rev_ind; [by apply elem_of_nil in Ha|].
    specialize (Hlast z (last_snoc _ _)).
    apply elem_of_app in Ha as [Ha|Ha].
    + apply StronglySorted_app in Hs as (Hs & _ & _).
      specialize (Hs a z Ha). simpl in Hs.
      assert (z < a) by (apply Hs; by apply list_elem_of_singleton). lia.
    + apply list_elem_of_singleton in Ha as ->. done.
  - done.
  - repeat constructor.
Qed.

Lemma g_recorded_relax heuristic adj currentG st neighbor :
  g_recorded st →
  g_recorded (AStar.relax heuristic adj currentG st neighbor).
Proof.
  intros H. unfold AStar.relax.
  destruct (H neighbor) as [Hsorted Hlast].
  set (newG := currentG + AStar.edgeCost adj neighbor).
  case_match eqn:Hbetter; [|done].
  intros node. simpl. rewrite g_history_snoc. simpl.
  destruct (decide (node = neighbor)) as [->|Hne].
  - rewrite lookup_insert_eq, last_snoc. split; [|done].
    apply decreasing_snoc; [done|].
    intros y Hy. rewrite <- Hlast in Hy. rewrite Hy in Hbetter.
    by apply bool_decide_eq_true_1 in Hbetter.
  - rewrite lookup_insert_ne by done. rewrite app_nil_r. apply H.
Qed.

Lemma g_recorded_relax_all heuristic adj currentG ns st :
  g_recorded st →
  g_recorded (foldl (AStar.relax heuristic adj currentG) st ns).
Proof.
  revert st. induction ns as [|n ns IH]; intros st H; simpl; [done|].
  by apply IH, g_recorded_relax.
Qed.

Lemma g_recorded_loop mazeGraph heuristic explored i st :
  g_recorded st →
  g_recorded (AStar.loop mazeGraph heuristic i explored st).
Proof.
  revert i st. induction explored as [|node rest IH]; intros i st H;
    simpl; [done|].
  assert (Hr : g_recorded (AStar.remove i node st)).
  { unfold AStar.remove. case_match; [|exact H].
    eapply (g_recorded_say (RemoveLowest _ _) st);
      [done|done|reflexivity|exact H]. }
  case_decide.
  - eapply (g_recorded_say (GoalReached _) (AStar.remove i node st));
      [done|done|reflexivity|exact Hr].
  - apply IH. unfold AStar.evaluate. case_match; [|done].
    match goal with
    | |- context [foldl ?f ?s ?l] =>
        assert (Hf : g_recorded (foldl f s l))
    end.
    { apply g_recorded_relax_all.
      eapply (g_recorded_say (EvaluateNeighbors _ _ _)
                (AStar.remove i node st));
        [done|done|reflexivity|exact Hr]. }
    exact Hf.
Qed.

(** X7. In the A* reconstruction the g-values narrated for one node,
    the start value 0 of A and then the values of its "Calculate"
    lines, are strictly decreasing: a node is put into the queue again
    only with a better g.  The table of g-values holds for every node
    the last of them, and nothing for a node without any. *)
Theorem astar_g_values_decrease
    (mazeGraph : Graph) (heuristic : gmap string Z)
    (explored path : list string) (node : string) :
  StronglySorted (λ a b, b < a)
    (g_history node
       (algorithmSteps (steps mazeGraph heuristic "astar" explored path)))
  ∧ AStar.gScores
      (AStar.loop mazeGraph heuristic 0 explored (AStar.init heuristic))
      !! node =
    last
      (g_history node
         (algorithmSteps (steps mazeGraph heuristic "astar" explored path))).
Proof.
  rewrite steps_astar. simpl. rewrite !g_history_snoc. simpl.
  rewrite !app_nil_r.
  apply (g_recorded_loop mazeGraph heuristic explored 0
           (AStar.init heuristic)).
  intros n. simpl. unfold g_history. simpl.
  destruct (decide (n = "A")) as [->|Hne]; simpl.
  - split; [repeat constructor | by rewrite lookup_singleton_eq].
  - split; [constructor | by rewrite lookup_singleton_ne].
Qed.

(** * Further properties of the playback *)

(** ** The schedule of a whole animation *)

Lemma schedule_length explored path :
  length (schedule explored path) = (length explored + length path)%nat.
Proof. unfold schedule. by rewrite length_app, !length_imap. Qed.

Lemma schedule_explore explored path (k : nat) :
  (k < length explored)%nat →
  (schedule explored path ++ [[]]) !! k =
    Some (explore_calls k (nth k explored "")).
Proof.
  intros Hk. unfold schedule.
  rewrite <- app_assoc, lookup_app_l by (by rewrite length_imap).
  rewrite list_lookup_imap, nth_lookup.
  destruct (lookup_lt_is_Some_2 explored k Hk) as [x ->]. done.
Qed.

Lemma schedule_path explored path (k : nat) :
  (length explored ≤ k)%nat →
  (k < length explored + length path)%nat →
  (schedule explored path ++ [[]]) !! k =
    Some (path_calls k (nth (k - length explored) path "")).
Proof.
  intros Hge Hk. unfold schedule.
  rewrite <- app_assoc, lookup_app_r by (by rewrite length_imap).
  rewrite length_imap, lookup_app_l by (rewrite length_imap; lia).
  rewrite list_lookup_imap, nth_lookup.
  destruct (lookup_lt_is_Some_2 path (k - length explored)) as [x ->];
    [lia|].
  simpl. do 2 f_equal. lia.
Qed.

Lemma schedule_end explored path :
  (schedule explored path ++ [[]]) !! (length explored + length path)%nat =
    Some [].
Proof.
  rewrite lookup_app_r by (rewrite schedule_length; lia).
  by rewrite schedule_length, Nat.sub_diag.
Qed.

Lemma ticks_schedule page explored path (n : nat) st :
  (∀ c, page c = None) →
  is_Some (animationInterval st) →
  exploredNodes st = Some explored →
  pathNodes st = Some path →
  (currentAnimationStep st ≤ length explored + length path)%nat →
  (ticks page n st).1 =
    take n (drop (currentAnimationStep st) (schedule explored path ++ [[]]))
  ∧ (animationInterval (ticks page n st).2 = None ↔
     (length explored + length path - currentAnimationStep st < n)%nat).
Proof.
  intros Hok. revert st.
  induction n as [|n IH]; intros st [timer Ht] He Hp Hle.
  { simpl. split; [done|]. rewrite Ht. split; [done | lia]. }
  destruct (decide (currentAnimationStep st < length explored)%nat)
    as [Hk|Hk].
  - erewrite ticks_S; [|done | by apply tick_explore].
    cbn [fst snd state_of].
    destruct (IH (advance st)) as [IH1 IH2]; [by eexists|done|done| |].
    { cbn [advance currentAnimationStep]. lia. }
    cbn [advance currentAnimationStep] in IH1, IH2.
    rewrite IH1, IH2.
    rewrite (drop_S _ _ _ (schedule_explore explored path _ Hk)).
    split; [done | lia].
  - destruct (decide (currentAnimationStep st
                      < length explored + length path)%nat) as [Hk'|Hk'].
    + assert (Hge : (length explored ≤ currentAnimationStep st)%nat) by lia.
      erewrite ticks_S; [|done | by apply tick_path].
      cbn [fst snd state_of].
      destruct (IH (advance st)) as [IH1 IH2]; [by eexists|done|done| |].
      { cbn [advance currentAnimationStep]. lia. }
      cbn [advance currentAnimationStep] in IH1, IH2.
      rewrite IH1, IH2.
      rewrite (drop_S _ _ _ (schedule_path explored path _ Hge Hk')).
      split; [done | lia].
    + assert (Hend : currentAnimationStep st =
                     (length explored + length path)%nat) by lia.
      erewrite ticks_S; [|done | eapply tick_complete; [done|done|lia]].
      cbn [fst snd state_of].
      rewrite ticks_disarmed by done. cbn [fst snd complete animationInterval].
      rewrite Hend.
      rewrite (drop_S _ _ _ (schedule_end explored path)).
      rewrite drop_ge by (rewrite length_app, schedule_length; simpl; lia).
      split; [by destruct n|]. split; [lia | done].
Qed.

(** X8. On a page whose calls do not raise, an animation started with
    any explored and path arrays runs one tick per explored node
    (highlight as visited, show the step) and then one per path node
    (highlight as in-path, move the robot, show the step), and one more
    tick that calls nothing: the first [n] ticks call the first [n]
    entries of that schedule, and the timer is cancelled exactly when
    more ticks have run than there are explored and path nodes. *)
Theorem playback_schedule
    (page : Instr → option Exn) (mazeGraph : Graph)
    (heuristic : gmap string Z) (speed : Z) (algorithm : string)
    (st0 : Animation) (explored path : list string) (n : nat) :
  (∀ c, page c = None) →
  ∃ st,
    startAnimation mazeGraph heuristic speed (Some explored) (Some path)
      algorithm st0 = Normal st
    ∧ (ticks page n st).1 = take n (schedule explored path ++ [[]])
    ∧ (animationInterval (ticks page n st).2 = None ↔
       (length explored + length path < n)%nat).
Proof.
  intros Hok. unfold startAnimation.
  rewrite generateAlgorithmSteps_returns.
  generalize (steps mazeGraph heuristic algorithm explored path). intros t.
  eexists. split; [reflexivity|].
  match goal with
  | |- context [ticks page n ?s] =>
      destruct (ticks_schedule page explored path n s Hok) as [H1 H2];
        [by eexists | done | done | simpl; lia |]
  end.
  cbn [currentAnimationStep] in H1, H2.
  rewrite drop_0 in H1. rewrite Nat.sub_0_r in H2. done.
Qed.

Lemma playback_schedule_witness :
  ∃ st,
    startAnimation graph_ABCD heuristic_ABCD 900 (Some ["A"; "B"])
      (Some ["A"; "B"]) "dfs"
      (resetMaze (mkAnimation None 0 None None (mkTrace [] []))) = Normal st
    ∧ (ticks page_ok 3 st).1 = take 3 (schedule ["A"; "B"] ["A"; "B"] ++ [[]])
    ∧ (animationInterval (ticks page_ok 3 st).2 = None ↔
       (length ["A"; "B"] + length ["A"; "B"] < 3)%nat).
Proof.
  apply (playback_schedule page_ok graph_ABCD heuristic_ABCD 900 "dfs" _
           ["A"; "B"] ["A"; "B"] 3).
  reflexivity.
Defined.

(** ** A handler that raises *)

(** X9. When the handler raises at some step while the timer is armed,
    every later tick makes the same calls and raises again: the step
    is never advanced, the timer is never cancelled, and the animation
    does not come to its end. *)
Theorem raising_handler_repeats
    (page : Instr → option Exn) (st st' : Animation) (timer : Timer)
    (e : Exn) (calls : list Instr) (n : nat) :
  animationInterval st = Some timer →
  tick page st = (Throw e st', calls) →
  ticks page n st = (replicate n calls, st).
Proof.
  intros Ht Htick. pose proof (tick_Throw _ _ _ _ _ Htick) as ->.
  induction n as [|n IH]; [done|].
  erewrite ticks_S; [|done..]. cbn [state_of]. by rewrite IH.
Qed.

Lemma raising_handler_repeats_witness :
  ticks page_without_panel 4
    (mkAnimation (Some (mkTimer 100)) 0 (Some ["A"]) (Some [])
       (mkTrace [] [])) =
  (replicate 4 [highlightNode "A" "visited"; updateAlgorithmStep 0],
   mkAnimation (Some (mkTimer 100)) 0 (Some ["A"]) (Some []) (mkTrace [] [])).
Proof.
  apply (raising_handler_repeats page_without_panel
           (mkAnimation (Some (mkTimer 100)) 0 (Some ["A"]) (Some [])
              (mkTrace [] []))
           (mkAnimation (Some (mkTimer 100)) 0 (Some ["A"]) (Some [])
              (mkTrace [] []))
           (mkTimer 100) TypeError
           [highlightNode "A" "visited"; updateAlgorithmStep 0] 4);
    reflexivity.
Defined.

(** * Properties of the page *)

(** ** What [createMaze] builds *)

Lemma Page_place_fields row col value p :
  let e := (row, col, value) in
  Page.nodeCellMap (Page.place row col value p) =
    list_to_map (option_list (node_entry e)) ∪ Page.nodeCellMap p
  ∧ Page.cellNodeMap (Page.place row col value p) =
    list_to_map (option_list (cell_entry e)) ∪ Page.cellNodeMap p
  ∧ Page.cells (Page.place row col value p) =
    Page.cells p ++ [Page.new_cell value]
  ∧ Page.robotElement (Page.place row col value p) = Page.robotElement p
  ∧ Page.stepsContainer (Page.place row col value p) = Page.stepsContainer p
  ∧ Page.dataStructureContainer (Page.place row col value p) =
    Page.dataStructureContainer p.
Proof.
  unfold Page.place, node_entry, cell_entry. simpl.
  destruct (decide (is_node value)); simpl.
  - rewrite !insert_empty, <- !insert_union_singleton_l. done.
  - by rewrite !(left_id_L ∅ (∪)).
Qed.

Lemma placed_refl p : placed [] p p.
Proof.
  unfold placed. simpl. rewrite !(left_id_L ∅ (∪)), app_nil_r. done.
Qed.

Lemma placed_app es1 es2 p p1 p2 :
  placed es1 p p1 → placed es2 p1 p2 → placed (es1 ++ es2) p p2.
Proof.
  intros (Hn1 & Hc1 & Hcells1 & Hr1 & Hs1 & Hd1)
         (Hn2 & Hc2 & Hcells2 & Hr2 & Hs2 & Hd2).
  unfold placed.
  rewrite !omap_app, !reverse_app, !list_to_map_app, fmap_app.
  rewrite Hn2, Hn1, Hc2, Hc1, Hcells2, Hcells1, Hr2, Hr1, Hs2, Hs1, Hd2, Hd1.
  by rewrite !(assoc_L (∪)), !(assoc_L (++)).
Qed.

Lemma placed_place row col value p :
  placed [(row, col, value)] p (Page.place row col value p).
Proof.
  destruct (Page_place_fields row col value p)
    as (Hn & Hc & Hcells & Hr & Hs & Hd).
  unfold placed. rewrite Hn, Hc, Hcells, Hr, Hs, Hd. simpl.
  by destruct (node_entry (row, col, value)), (cell_entry (row, col, value)).
Qed.

Lemma fill_row_placed row col values p :
  placed (imap (λ c v, (row, col + c, v)%nat) values) p
    (Page.fill_row row col values p).
Proof.
  revert col p. induction values as [|v values IH]; intros col p; simpl.
  - apply placed_refl.
  - rewrite Nat.add_0_r.
    apply (placed_app [_] _ p (Page.place row col v p)).
    + apply placed_place.
    + erewrite imap_ext; [apply (IH (S col))|].
      intros i x _. simpl. do 2 f_equal. lia.
Qed.

Lemma fill_rows_placed row grid p :
  placed (indexed_from row grid) p (Page.fill_rows row grid p).
Proof.
  revert row p. induction grid as [|values grid IH]; intros row p; simpl.
  - apply placed_refl.
  - unfold indexed_from. rewrite imap_cons. simpl.
    apply (placed_app _ _ p (Page.fill_row row 0 values p)).
    + rewrite Nat.add_0_r. apply (fill_row_placed row 0).
    + erewrite imap_ext; [apply (IH (S row))|].
      intros i x _. simpl. apply imap_ext. intros j y _. do 2 f_equal. lia.
Qed.

(** Membership in the indexed grid is lookup by row and column. *)
Lemma elem_of_indexed_from row grid r c v :
  (r, c, v) ∈ indexed_from row grid ↔
  ∃ values, (row ≤ r)%nat ∧ grid !! (r - row)%nat = Some values
            ∧ values !! c = Some v.
Proof.
  unfold indexed_from. rewrite list_elem_of_In, in_concat. split.
  - intros (l & Hl & Hin).
    apply list_elem_of_In, elem_of_lookup_imap in Hl
      as (i & values & -> & Hi).
    apply list_elem_of_In, elem_of_lookup_imap in Hin
      as (j & y & Heq & Hj).
    injection Heq as -> -> ->.
    exists values. split; [lia|]. split; [|done].
    by replace (row + i - row)%nat with i by lia.
  - intros (values & Hle & Hr & Hc).
    exists (imap (λ c0 v0, (r, c0, v0)) values). split.
    + apply list_elem_of_In, elem_of_lookup_imap.
      exists (r - row)%nat, values. split; [|done].
      apply imap_ext. intros j y _. do 2 f_equal. lia.
    + apply list_elem_of_In, elem_of_lookup_imap. by exists c, v.
Qed.

Lemma snd_imap {A B} (f : nat → B → A * B) (l : list B) :
  (∀ i x, (f i x).2 = x) → snd <$> imap f l = l.
Proof.
  revert f. induction l as [|x l IH]; intros f Hf; [done|].
  rewrite imap_cons. simpl. rewrite Hf. f_equal. apply IH.
  intros i y. apply Hf.
Qed.

Lemma indexed_from_values row grid :
  snd <$> indexed_from row grid = concat grid.
Proof.
  revert row. induction grid as [|values grid IH]; intros row; [done|].
  unfold indexed_from. rewrite imap_cons. simpl. rewrite fmap_app.
  f_equal.
  - by apply snd_imap.
  - rewrite <- (IH (S row)). unfold indexed_from. do 2 f_equal.
    apply imap_ext. intros i x _. apply imap_ext. intros j y _.
    do 2 f_equal. simpl. lia.
Qed.

Lemma Page_state_eq (p q : Page.State) :
  Page.nodeCellMap p = Page.nodeCellMap q →
  Page.cellNodeMap p = Page.cellNodeMap q →
  Page.robotElement p = Page.robotElement q →
  Page.cells p = Page.cells q →
  Page.stepsContainer p = Page.stepsContainer q →
  Page.dataStructureContainer p = Page.dataStructureContainer q →
  p = q.
Proof. destruct p, q. simpl. by intros -> -> -> -> -> ->. Qed.

Lemma createMaze_fields grid p :
  Page.nodeCellMap (Page.createMaze grid p) =
    list_to_map (reverse (omap node_entry (indexed_from 0 grid)))
      ∪ Page.nodeCellMap p
  ∧ Page.cellNodeMap (Page.createMaze grid p) =
    list_to_map (reverse (omap cell_entry (indexed_from 0 grid)))
      ∪ Page.cellNodeMap p
  ∧ Page.cells (Page.createMaze grid p) = Page.new_cell <$> concat grid
  ∧ Page.robotElement (Page.createMaze grid p) =
    Some (robot_on (Page.nodeCellMap (Page.createMaze grid p) !! "A"))
  ∧ Page.stepsContainer (Page.createMaze grid p) = Page.stepsContainer p
  ∧ Page.dataStructureContainer (Page.createMaze grid p) =
    Page.dataStructureContainer p.
Proof.
  unfold Page.createMaze.
  destruct (fill_rows_placed 0 grid
              (Page.set_cells [] (Page.set_robot (Some None) p)))
    as (Hn & Hc & Hcells & Hr & Hs & Hd).
  revert Hn Hc Hcells Hr Hs Hd.
  generalize (Page.fill_rows 0 grid
                (Page.set_cells [] (Page.set_robot (Some None) p))).
  intros q Hn Hc Hcells Hr Hs Hd. simpl in *.
  rewrite list_fmap_compose, indexed_from_values in Hcells.
  unfold Page.positionRobotAtNode. rewrite Hr.
  destruct (Page.nodeCellMap q !! "A") as [[row col]|] eqn:HA; simpl;
    rewrite HA; done.
Qed.

Lemma createMaze_map_sound grid id r c :
  Page.nodeCellMap (Page.createMaze grid Page.initial) !! id = Some (r, c) →
  ∃ values v, grid !! r = Some values ∧ values !! c = Some v
              ∧ is_node v ∧ key_of v = id.
Proof.
  destruct (createMaze_fields grid Page.initial) as (Hn & _).
  simpl in Hn. rewrite (right_id_L ∅ (∪)) in Hn.
  intros Hid. rewrite Hn in Hid.
  apply elem_of_list_to_map_2, elem_of_reverse, list_elem_of_omap in Hid
    as ([[r' c'] v] & He & Hentry).
  unfold node_entry in Hentry. simpl in Hentry.
  destruct (decide (is_node v)) as [Hv|]; [|done].
  injection Hentry as <- <- <-.
  apply elem_of_indexed_from in He as (values & _ & Hrow & Hcol).
  rewrite Nat.sub_0_r in Hrow. by exists values, v.
Qed.

Lemma createMaze_map_complete grid r c values v :
  grid !! r = Some values → values !! c = Some v → is_node v →
  is_Some (Page.nodeCellMap (Page.createMaze grid Page.initial) !! key_of v).
Proof.
  destruct (createMaze_fields grid Page.initial) as (Hn & _).
  simpl in Hn. rewrite (right_id_L ∅ (∪)) in Hn.
  intros Hrow Hcol Hv. rewrite Hn.
  destruct (list_to_map _ !! key_of v) as [rc|] eqn:Hlook; [by eexists|].
  apply not_elem_of_list_to_map in Hlook. exfalso. apply Hlook.
  apply list_elem_of_fmap. exists (key_of v, (r, c)). split; [done|].
  apply elem_of_reverse, list_elem_of_omap. exists (r, c, v). split.
  - apply elem_of_indexed_from. exists values.
    rewrite Nat.sub_0_r. split; [lia | done].
  - unfold node_entry. simpl. by rewrite decide_True.
Qed.

(** X10. After [createMaze] on the fresh page, an entry of the node
    map points at a grid cell that is a node and carries that key, and
    every node cell of the grid has its key in the map; the cells of
    the page are those of the grid values in row order; the robot
    stands at the centre of the cell the map gives for node A, and has
    no position when the grid has no node A. *)
Theorem createMaze_node_map (grid : list (list GridValue)) :
  (∀ id r c,
     Page.nodeCellMap (Page.createMaze grid Page.initial) !! id = Some (r, c) →
     ∃ values v, grid !! r = Some values ∧ values !! c = Some v
                 ∧ is_node v ∧ key_of v = id)
  ∧ (∀ r c values v,
       grid !! r = Some values → values !! c = Some v → is_node v →
       is_Some
         (Page.nodeCellMap (Page.createMaze grid Page.initial) !! key_of v))
  ∧ Page.cells (Page.createMaze grid Page.initial) =
    Page.new_cell <$> concat grid
  ∧ Page.robotElement (Page.createMaze grid Page.initial) =
    Some
      (robot_on (Page.nodeCellMap (Page.createMaze grid Page.initial) !! "A")).
Proof.
  destruct (createMaze_fields grid Page.initial)
    as (_ & _ & Hcells & Hr & _ & _).
  split; [|split; [|done]].
  - intros id r c. apply createMaze_map_sound.
  - intros r c values v. apply createMaze_map_complete.
Qed.

(** ** The cell [highlightNode] marks *)

Lemma concat_lookup_rows (grid : list (list GridValue)) (w r c : nat)
    values v :
  (∀ row, row ∈ grid → length row = w) →
  grid !! r = Some values → values !! c = Some v →
  concat grid !! (r * w + c)%nat = Some v.
Proof.
  revert r. induction grid as [|row grid IH]; intros r Hw Hr Hc; [done|].
  simpl. destruct r as [|r]; simpl in *.
  - injection Hr as ->. rewrite lookup_app_l; [done|].
    by eapply lookup_lt_Some.
  - rewrite lookup_app_r by (rewrite Hw by (by left); lia).
    rewrite Hw by (by left).
    replace (w + r * w + c - w)%nat with (r * w + c)%nat by lia.
    apply IH; [|done|done]. intros row' Hrow'. apply Hw. by right.
Qed.

(** X11. On a grid whose rows all have the length of the first, after
    [createMaze] on the fresh page, [highlightNode] for a node id of
    the map adds the class to the cell that carries this id as its
    label, a node cell, and to no other: the index it computes from
    the row, the column and the width of row 0 is the place of that
    cell among the cells of the page. *)
Theorem highlightNode_marks_labelled_cell
    (grid : list (list GridValue)) (nodeId className : string) (r c : nat) :
  rectangular grid →
  Page.nodeCellMap (Page.createMaze grid Page.initial) !! nodeId
    = Some (r, c) →
  ∃ cell,
    Page.cells (Page.createMaze grid Page.initial) !! (r * width grid + c)%nat
      = Some cell
    ∧ label cell = Some nodeId
    ∧ "node" ∈ classList cell
    ∧ Page.highlightNode grid nodeId className
        (Page.createMaze grid Page.initial) =
      Normal
        (Page.set_cells
           (<[(r * width grid + c)%nat :=
                mkCell (classList_add className (classList cell))
                  (Some nodeId)]>
              (Page.cells (Page.createMaze grid Page.initial)))
           (Page.createMaze grid Page.initial)).
Proof.
  intros Hrect Hid.
  destruct (createMaze_fields grid Page.initial) as (_ & _ & Hcells & _).
  destruct (createMaze_map_sound grid nodeId r c Hid)
    as (values & v & Hrow & Hcol & Hv & Hkey).
  assert (Hlook : Page.cells (Page.createMaze grid Page.initial)
                    !! (r * width grid + c)%nat = Some (Page.new_cell v)).
  { rewrite Hcells, list_lookup_fmap.
    by rewrite (concat_lookup_rows grid (width grid) r c values v). }
  assert (Hcell : label (Page.new_cell v) = Some nodeId
                  ∧ "node" ∈ classList (Page.new_cell v)).
  { destruct Hv as [H99 H0]. unfold Page.new_cell.
    rewrite !decide_False by done. simpl. rewrite Hkey. split; [done|].
    repeat case_decide; unfold classList_add; simpl; set_solver. }
  destruct Hcell as [Hlabel Hnode].
  exists (Page.new_cell v). repeat split; [done..|].
  unfold Page.highlightNode. rewrite Hid.
  destruct grid as [|row0 grid']; [done|].
  unfold width in *. simpl in *. by rewrite Hlook, Hlabel.
Qed.

Lemma highlightNode_marks_labelled_cell_witness :
  ∃ cell,
    Page.cells
      (Page.createMaze [[GNum 99; GStr "A"]; [GNum 0; GStr "B"]] Page.initial)
      !! (1 * width [[GNum 99; GStr "A"]; [GNum 0; GStr "B"]] + 1)%nat
      = Some cell
    ∧ label cell = Some "B"
    ∧ "node" ∈ classList cell
    ∧ Page.highlightNode [[GNum 99; GStr "A"]; [GNum 0; GStr "B"]] "B"
        "visited"
        (Page.createMaze [[GNum 99; GStr "A"]; [GNum 0; GStr "B"]]
           Page.initial) =
      Normal
        (Page.set_cells
           (<[(1 * width [[GNum 99; GStr "A"]; [GNum 0; GStr "B"]] + 1)%nat :=
                mkCell (classList_add "visited" (classList cell)) (Some "B")]>
              (Page.cells
                 (Page.createMaze [[GNum 99; GStr "A"]; [GNum 0; GStr "B"]]
                    Page.initial)))
           (Page.createMaze [[GNum 99; GStr "A"]; [GNum 0; GStr "B"]]
              Page.initial)).
Proof.
  apply (highlightNode_marks_labelled_cell
           [[GNum 99; GStr "A"]; [GNum 0; GStr "B"]] "B" "visited" 1 1).
  - intros values Hvalues.
    repeat (apply elem_of_cons in Hvalues as [->|Hvalues]; [reflexivity|]).
    by apply elem_of_nil in Hvalues.
  - vm_compute. reflexivity.
Defined.

(** ** [createMaze] twice *)

(** X12. Calling [createMaze] a second time, as the script does (once
    at the end of the script, once when the document is loaded),
    leaves the page as the first call built it: maps, cells, robot and
    panels are the same. *)
Theorem createMaze_twice (grid : list (list GridValue)) (p : Page.State) :
  Page.createMaze grid (Page.createMaze grid p) = Page.createMaze grid p.
Proof.
  destruct (createMaze_fields grid p) as (Hn & Hc & Hcells & Hr & Hs & Hd).
  destruct (createMaze_fields grid (Page.createMaze grid p))
    as (Hn' & Hc' & Hcells' & Hr' & Hs' & Hd').
  assert (HnEq : Page.nodeCellMap (Page.createMaze grid (Page.createMaze grid p))
                 = Page.nodeCellMap (Page.createMaze grid p)).
  { rewrite Hn', Hn, (assoc_L (∪)), (idemp_L (∪)). done. }
  apply Page_state_eq.
  - done.
  - rewrite Hc', Hc, (assoc_L (∪)), (idemp_L (∪)). done.
  - by rewrite Hr', Hr, HnEq.
  - by rewrite Hcells', Hcells.
  - by rewrite Hs'.
  - by rewrite Hd'.
Qed.

(** ** The handler's calls on the page *)

Lemma exec_all_app grid t calls1 calls2 p :
  exec_all grid t (calls1 ++ calls2) p =
    match exec_all grid t calls1 p with
    | Normal p' => exec_all grid t calls2 p'
    | Throw e p' => Throw e p'
    end.
Proof.
  revert p. induction calls1 as [|c calls1 IH]; intros p; simpl; [done|].
  destruct (exec grid t c p); [apply IH | done].
Qed.

Lemma unmarked_add className (cell : Cell) :
  className = "visited" ∨ className = "in-path" →
  unmarked (mkCell (classList_add className (classList cell)) (label cell)) =
  unmarked cell.
Proof.
  intros Hc. unfold unmarked, classList_add, classList_remove. simpl.
  f_equal. case_decide; [done|].
  rewrite filter_app, filter_cons_False, filter_nil, app_nil_r; [done|].
  intros Hn. apply Hn. destruct Hc as [-> | ->]; set_solver.
Qed.

Lemma unmarked_new_cell value :
  unmarked (Page.new_cell value) = Page.new_cell value.
Proof.
  unfold Page.new_cell. repeat case_decide; reflexivity.
Qed.

(** What one call of the handler changes. *)
Lemma exec_playback_call grid t c p :
  playback_call c → grid_known grid p →
  ∃ p', exec grid t c p = Normal p'
        ∧ Page.nodeCellMap p' = Page.nodeCellMap p
        ∧ unmarked <$> Page.cells p' = unmarked <$> Page.cells p
        ∧ ((∀ step, c ≠ updateAlgorithmStep step) →
             Page.stepsContainer p' = Page.stepsContainer p
             ∧ Page.dataStructureContainer p' = Page.dataStructureContainer p)
        ∧ (∀ step, c = updateAlgorithmStep step →
             p' = Page.updateAlgorithmStep t step p).
Proof.
  intros Hc Hknown. destruct c as [nodeId className|nodeId|step]; simpl.
  - unfold Page.highlightNode.
    destruct (Page.nodeCellMap p !! nodeId) as [[row col]|] eqn:Hid.
    2: { exists p. repeat split; done. }
    destruct grid as [|row0 grid'].
    { rewrite Hknown in Hid by done. by rewrite lookup_empty in Hid. }
    destruct (Page.cells p !! (row * length row0 + col)%nat) as [cell|]
      eqn:Hcell.
    2: { exists p. repeat split; done. }
    eexists. split; [done|]. simpl. split; [done|].
    split; [|split; [done | intros; done]].
    rewrite list_fmap_insert, unmarked_add by done.
    apply list_insert_id. by rewrite list_lookup_fmap, Hcell.
  - eexists. split; [done|]. unfold Page.positionRobotAtNode.
    destruct (Page.nodeCellMap p !! nodeId) as [[row col]|],
      (Page.robotElement p); simpl; repeat split; done.
  - eexists. split; [done|]. simpl. split; [done|]. split; [done|].
    split; [|congruence].
    intros Hs. by destruct (Hs step).
Qed.

Lemma exec_all_playback grid t calls p :
  Forall playback_call calls → grid_known grid p →
  ∃ p', exec_all grid t calls p = Normal p'
        ∧ Page.nodeCellMap p' = Page.nodeCellMap p
        ∧ unmarked <$> Page.cells p' = unmarked <$> Page.cells p.
Proof.
  intros Hcalls. revert p.
  induction Hcalls as [|c calls Hc _ IH]; intros p Hknown; simpl.
  - by exists p.
  - destruct (exec_playback_call grid t c p Hc Hknown)
      as (p1 & -> & Hn1 & Hu1 & _).
    destruct (IH p1) as (p' & -> & Hn & Hu).
    { intros Hg. rewrite Hn1. by apply Hknown. }
    exists p'. split; [done|]. split; congruence.
Qed.

Lemma createMaze_grid_known grid :
  grid_known grid (Page.createMaze grid Page.initial).
Proof.
  intros ->. destruct (createMaze_fields [] Page.initial) as (Hn & _).
  rewrite Hn. simpl. by rewrite (left_id_L ∅ (∪)).
Qed.

Lemma schedule_playback_calls explored path :
  Forall (Forall playback_call) (schedule explored path).
Proof.
  unfold schedule. apply Forall_app. split; apply Forall_forall;
    intros calls (i & x & -> & _)%elem_of_lookup_imap;
    unfold explore_calls, path_calls;
    repeat (apply Forall_cons; split); simpl; auto.
Qed.

Lemma exec_all_robot grid t calls p p' :
  exec_all grid t calls p = Normal p' →
  is_Some (Page.robotElement p) → is_Some (Page.robotElement p').
Proof.
  revert p. induction calls as [|c calls IH]; intros p Hexec Hr;
    simpl in Hexec.
  - by injection Hexec as <-.
  - destruct (exec grid t c p) as [p1|] eqn:Hc; [|done].
    apply (IH p1 Hexec).
    destruct c as [nodeId className|nodeId|step]; simpl in Hc.
    + unfold Page.highlightNode in Hc.
      repeat case_match; simplify_eq; done.
    + injection Hc as <-. destruct Hr as [r Hr].
      unfold Page.positionRobotAtNode. rewrite Hr.
      repeat case_match; simpl; eauto.
    + by injection Hc as <-.
Qed.

(** ** [resetMaze] after an animation *)

(** X13. Whatever calls with the classes [visited] and [in-path] the
    handler has made on the page [createMaze] built, none raises, and
    [resetMaze] gives back the cells as [createMaze] made them, with
    the same node map and empty panels.  The robot is back at the
    centre of node A's cell when the map has node A; when it has not,
    [resetMaze] leaves the robot where the animation put it. *)
Theorem resetMaze_undoes_playback
    (grid : list (list GridValue)) (t : Trace) (calls : list Instr) :
  Forall playback_call calls →
  ∃ p',
    exec_all grid t calls (Page.createMaze grid Page.initial) = Normal p'
    ∧ Page.cells (Page.resetMaze p') =
      Page.cells (Page.createMaze grid Page.initial)
    ∧ Page.nodeCellMap (Page.resetMaze p') =
      Page.nodeCellMap (Page.createMaze grid Page.initial)
    ∧ Page.stepsContainer (Page.resetMaze p') = ""
    ∧ Page.dataStructureContainer (Page.resetMaze p') = PanelItems []
    ∧ (is_Some (Page.nodeCellMap (Page.createMaze grid Page.initial) !! "A") →
       Page.robotElement (Page.resetMaze p') =
       Page.robotElement (Page.createMaze grid Page.initial))
    ∧ (Page.nodeCellMap (Page.createMaze grid Page.initial) !! "A" = None →
       Page.robotElement (Page.resetMaze p') = Page.robotElement p').
Proof.
  intros Hcalls.
  destruct (exec_all_playback grid t calls _ Hcalls
              (createMaze_grid_known grid)) as (p' & Hexec & Hn & Hu).
  exists p'. split; [done|].
  destruct (createMaze_fields grid Page.initial)
    as (_ & _ & Hcells & Hr & _ & _).
  assert (Hrobot : is_Some (Page.robotElement p')).
  { eapply exec_all_robot; [exact Hexec|]. rewrite Hr. by eexists. }
  destruct Hrobot as [r' Hr'].
  assert (Hreset : Page.cells (Page.resetMaze p') =
                   unmarked <$> Page.cells p'
                   ∧ Page.nodeCellMap (Page.resetMaze p') =
                     Page.nodeCellMap p'
                   ∧ Page.robotElement (Page.resetMaze p') =
                     match Page.nodeCellMap p' !! "A" with
                     | Some rc => Some (robot_on (Some rc))
                     | None => Page.robotElement p'
                     end).
  { unfold Page.resetMaze, Page.positionRobotAtNode. simpl. rewrite Hr'.
    destruct (Page.nodeCellMap p' !! "A") as [[row col]|]; done. }
  destruct Hreset as (Hc1 & Hn1 & Hr1).
  split; [|split; [|split; [|split; [|split]]]].
  - rewrite Hc1, Hu, Hcells, <- list_fmap_compose.
    apply list_fmap_ext. intros i v _. apply unmarked_new_cell.
  - by rewrite Hn1.
  - done.
  - done.
  - intros [rc HA]. rewrite Hr1, Hn, HA, Hr, HA. done.
  - intros HA. by rewrite Hr1, Hn, HA.
Qed.

Lemma resetMaze_undoes_playback_witness :
  ∃ p',
    exec_all [[GStr "A"; GNum 0; GStr "B"]] (mkTrace [] [])
      (concat (schedule ["A"; "B"] ["A"; "B"]))
      (Page.createMaze [[GStr "A"; GNum 0; GStr "B"]] Page.initial) = Normal p'
    ∧ Page.cells (Page.resetMaze p') =
      Page.cells (Page.createMaze [[GStr "A"; GNum 0; GStr "B"]] Page.initial)
    ∧ Page.nodeCellMap (Page.resetMaze p') =
      Page.nodeCellMap
        (Page.createMaze [[GStr "A"; GNum 0; GStr "B"]] Page.initial)
    ∧ Page.stepsContainer (Page.resetMaze p') = ""
    ∧ Page.dataStructureContainer (Page.resetMaze p') = PanelItems []
    ∧ (is_Some
         (Page.nodeCellMap
            (Page.createMaze [[GStr "A"; GNum 0; GStr "B"]] Page.initial)
            !! "A") →
       Page.robotElement (Page.resetMaze p') =
       Page.robotElement
         (Page.createMaze [[GStr "A"; GNum 0; GStr "B"]] Page.initial))
    ∧ (Page.nodeCellMap
         (Page.createMaze [[GStr "A"; GNum 0; GStr "B"]] Page.initial)
         !! "A" = None →
       Page.robotElement (Page.resetMaze p') = Page.robotElement p').
Proof.
  apply (resetMaze_undoes_playback [[GStr "A"; GNum 0; GStr "B"]]
           (mkTrace [] []) (concat (schedule ["A"; "B"] ["A"; "B"]))).
  apply Forall_concat, schedule_playback_calls.
Defined.

(** ** What the panels show *)

Lemma positionRobotAtNode_fields nodeId p :
  Page.nodeCellMap (Page.positionRobotAtNode nodeId p) = Page.nodeCellMap p
  ∧ Page.stepsContainer (Page.positionRobotAtNode nodeId p) =
    Page.stepsContainer p
  ∧ Page.dataStructureContainer (Page.positionRobotAtNode nodeId p) =
    Page.dataStructureContainer p.
Proof.
  unfold Page.positionRobotAtNode.
  destruct (Page.nodeCellMap p !! nodeId) as [[row col]|],
    (Page.robotElement p); done.
Qed.

Lemma updateAlgorithmStep_panels t step p q :
  Page.stepsContainer p = Page.stepsContainer q →
  Page.dataStructureContainer p = Page.dataStructureContainer q →
  Page.stepsContainer (Page.updateAlgorithmStep t step p) =
    Page.stepsContainer (Page.updateAlgorithmStep t step q)
  ∧ Page.dataStructureContainer (Page.updateAlgorithmStep t step p) =
    Page.dataStructureContainer (Page.updateAlgorithmStep t step q).
Proof. intros Hs Hd. unfold Page.updateAlgorithmStep. simpl. by rewrite Hs, Hd. Qed.

Lemma tick_calls_panels grid t (k : nat) calls p :
  (∃ nodeId, calls = explore_calls k nodeId ∨ calls = path_calls k nodeId) →
  grid_known grid p →
  ∃ p', exec_all grid t calls p = Normal p'
        ∧ grid_known grid p'
        ∧ Page.stepsContainer p' =
          Page.stepsContainer (Page.updateAlgorithmStep t k p)
        ∧ Page.dataStructureContainer p' =
          Page.dataStructureContainer (Page.updateAlgorithmStep t k p).
Proof.
  intros [nodeId Hcalls] Hknown.
  assert (Hh : ∀ className q,
            className = "visited" ∨ className = "in-path" →
            grid_known grid q →
            ∃ q', exec grid t (highlightNode nodeId className) q = Normal q'
                  ∧ grid_known grid q'
                  ∧ Page.stepsContainer q' = Page.stepsContainer q
                  ∧ Page.dataStructureContainer q' =
                    Page.dataStructureContainer q).
  { intros className q Hc Hq.
    destruct (exec_playback_call grid t (highlightNode nodeId className) q
                Hc Hq) as (q' & Hexec & Hn & _ & Hpanels & _).
    exists q'. split; [done|]. split.
    - intros Hg. rewrite Hn. by apply Hq.
    - by apply Hpanels. }
  destruct Hcalls as [-> | ->].
  - destruct (Hh "visited" p) as (q & Hexec & Hq & Hs & Hd); [by left|done|].
    unfold explore_calls. cbn [exec_all]. rewrite Hexec. cbn [exec].
    eexists. split; [done|]. split; [exact Hq|].
    by apply updateAlgorithmStep_panels.
  - destruct (Hh "in-path" p) as (q & Hexec & Hq & Hs & Hd); [by right|done|].
    unfold path_calls. cbn [exec_all]. rewrite Hexec. cbn [exec].
    destruct (positionRobotAtNode_fields nodeId q) as (Hn' & Hs' & Hd').
    eexists. split; [done|]. split.
    { intros Hg. change (Page.nodeCellMap (Page.positionRobotAtNode nodeId q)
                         = ∅). rewrite Hn'. by apply Hq. }
    apply updateAlgorithmStep_panels; congruence.
Qed.

Lemma schedule_lookup explored path (k : nat) :
  (k < length explored + length path)%nat →
  ∃ calls nodeId,
    schedule explored path !! k = Some calls
    ∧ (calls = explore_calls k nodeId ∨ calls = path_calls k nodeId).
Proof.
  intros Hk.
  assert (Hin : (k < length (schedule explored path))%nat)
    by by rewrite schedule_length.
  destruct (decide (k < length explored)%nat) as [He|He].
  - pose proof (schedule_explore explored path k He) as H.
    rewrite lookup_app_l in H by done. eauto.
  - pose proof (schedule_path explored path k ltac:(lia) Hk) as H.
    rewrite lookup_app_l in H by done. eauto.
Qed.

Lemma playback_panels grid t explored path (n : nat) :
  (n ≤ length explored + length path)%nat →
  ∃ p',
    exec_all grid t (concat (take n (schedule explored path)))
      (Page.createMaze grid Page.initial) = Normal p'
    ∧ grid_known grid p'
    ∧ Page.stepsContainer p' = joined (take n (algorithmSteps t))
    ∧ Page.dataStructureContainer p' =
      panel_after (take n (dataStructureSteps t)).
Proof.
  induction n as [|n IH]; intros Hn.
  - eexists. split; [done|]. split; [apply createMaze_grid_known|].
    destruct (createMaze_fields grid Page.initial)
      as (_ & _ & _ & _ & -> & ->). done.
  - destruct IH as (p & Hexec & Hknown & Hs & Hd); [lia|].
    destruct (schedule_lookup explored path n) as (calls & nodeId & Hl & Hc);
      [lia|].
    rewrite (take_S_r _ _ _ Hl), concat_app, exec_all_app, Hexec. simpl.
    rewrite app_nil_r.
    destruct (tick_calls_panels grid t n calls p) as (p' & -> & Hk' & Hs' & Hd');
      [by exists nodeId | done |].
    exists p'. split; [done|]. split; [done|]. split.
    + rewrite Hs'. simpl. case_match eqn:Hlt.
      * done.
      * apply Nat.ltb_ge in Hlt.
        by rewrite Hs, !take_ge by lia.
    + rewrite Hd'. simpl.
      destruct (dataStructureSteps t !! n) as [items|] eqn:Hitems.
      * rewrite (take_S_r _ _ _ Hitems). unfold panel_after.
        by rewrite last_snoc.
      * apply lookup_ge_None in Hitems.
        by rewrite Hd, !take_ge by lia.
Qed.

(** X14. On the page [createMaze] built, after the first [n] ticks of
    an animation (at most as many as there are explored and path
    nodes) no call has raised, the step panel shows the first [n]
    narration lines joined by line breaks, and the data-structure
    panel shows the last of the first [n] snapshots, or nothing when
    there is none: narration lines and snapshots from index
    [explored.length + path.length] on are never shown. *)
Theorem playback_display
    (grid : list (list GridValue)) (t : Trace)
    (explored path : list string) (n : nat) :
  (n ≤ length explored + length path)%nat →
  ∃ p',
    exec_all grid t (concat (take n (schedule explored path)))
      (Page.createMaze grid Page.initial) = Normal p'
    ∧ Page.stepsContainer p' = joined (take n (algorithmSteps t))
    ∧ Page.dataStructureContainer p' =
      panel_after (take n (dataStructureSteps t)).
Proof.
  intros Hn.
  destruct (playback_panels grid t explored path n Hn)
    as (p' & Hexec & _ & Hs & Hd).
  exists p'. split; [exact Hexec|]. split; [exact Hs | exact Hd].
Qed.

Lemma playback_display_witness :
  ∃ p',
    exec_all [[GStr "A"; GNum 0; GStr "B"]]
      (steps graph_ABCD heuristic_ABCD "bfs" ["A"; "B"] ["A"; "B"])
      (concat (take 4 (schedule ["A"; "B"] ["A"; "B"])))
      (Page.createMaze [[GStr "A"; GNum 0; GStr "B"]] Page.initial) = Normal p'
    ∧ Page.stepsContainer p' =
      joined
        (take 4
           (algorithmSteps
              (steps graph_ABCD heuristic_ABCD "bfs" ["A"; "B"] ["A"; "B"])))
    ∧ Page.dataStructureContainer p' =
      panel_after
        (take 4
           (dataStructureSteps
              (steps graph_ABCD heuristic_ABCD "bfs" ["A"; "B"] ["A"; "B"]))).
Proof.
  apply (playback_display [[GStr "A"; GNum 0; GStr "B"]]
           (steps graph_ABCD heuristic_ABCD "bfs" ["A"; "B"] ["A"; "B"])
           ["A"; "B"] ["A"; "B"] 4).
  simpl. lia.
Defined.

(** * Properties of the solve button *)

(** X15. However the request ends, [solveMaze] leaves the button
    enabled and the page reset, and no exception leaves it.  When the
    response is ok and carries both arrays, a timer is armed at step 0
    with the trace of these arrays and nothing is reported; in every
    other case (the request fails, the status is not ok, the body is
    unreadable or null, an array is missing) no timer is armed, also
    not the one of an animation that was running, and exactly one
    alert is shown. *)
Theorem solveMaze_outcome
    (mazeGraph : Graph) (heuristic : gmap string Z) (speed : Z)
    (algorithm : string) (response : Response) (a : App) :
  solveButton_disabled
    (solveMaze mazeGraph heuristic speed algorithm response a) = false
  ∧ app_page (solveMaze mazeGraph heuristic speed algorithm response a) =
    Page.resetMaze (app_page a)
  ∧ (∀ explored path,
       response = Answered true (JsonObject (Some explored) (Some path)) →
       app_animation
         (solveMaze mazeGraph heuristic speed algorithm response a) =
       mkAnimation (Some (mkTimer (animationDelay speed))) 0 (Some explored)
         (Some path) (steps mazeGraph heuristic algorithm explored path)
       ∧ alerts (solveMaze mazeGraph heuristic speed algorithm response a) =
         alerts a)
  ∧ (¬ usable response →
     animationInterval
       (app_animation
          (solveMaze mazeGraph heuristic speed algorithm response a)) = None
     ∧ ∃ failure,
         alerts (solveMaze mazeGraph heuristic speed algorithm response a) =
         alerts a ++ [failure]).
Proof.
  split; [done|]. split; [done|]. split.
  - intros explored path ->.
    unfold solveMaze, solveMaze_settle, solveMaze_try, solveMaze_begin.
    cbn [app_animation alerts fst snd]. unfold startAnimation.
    rewrite generateAlgorithmSteps_returns. cbn [fst snd option_list].
    by rewrite app_nil_r.
  - intros Hbad.
    unfold solveMaze, solveMaze_settle, solveMaze_begin.
    cbn [app_animation alerts].
    destruct response as [|[|] [| |explored path]];
      try (split; [reflexivity | by eexists]).
    destruct explored as [explored|], path as [path|];
      [exfalso; apply Hbad; by eexists _, _|..].
    all: match goal with
         | |- context [JsonObject ?e ?p] =>
             destruct (generateAlgorithmSteps_null mazeGraph heuristic
                         algorithm e p) as [t' Hnull]; [auto|]
         end.
    all: unfold solveMaze_try, startAnimation; rewrite Hnull.
    all: split; [reflexivity | by eexists].
Qed.

(** * Further properties of the page and the narration *)

(** ** Highlighting twice *)

Lemma classList_add_idemp c cl :
  classList_add c (classList_add c cl) = classList_add c cl.
Proof.
  unfold classList_add. destruct (decide (c ∈ cl)) as [Hin|Hin].
  - by rewrite decide_True.
  - rewrite decide_True; [done|]. apply elem_of_app. right.
    by apply list_elem_of_singleton.
Qed.

(** X16. Highlighting a node a second time with the same class changes
    nothing: a node that occurs twice in the explored or the path
    array carries the class once. *)
Theorem highlightNode_twice
    (grid : list (list GridValue)) (nodeId className : string)
    (p p1 : Page.State) :
  Page.highlightNode grid nodeId className p = Normal p1 →
  Page.highlightNode grid nodeId className p1 = Normal p1.
Proof.
  unfold Page.highlightNode.
  destruct (Page.nodeCellMap p !! nodeId) as [[row col]|] eqn:Hid.
  2: { intros [= <-]. by rewrite Hid. }
  destruct grid as [|row0 grid']; [done|].
  destruct (Page.cells p !! (row * length row0 + col)%nat) as [cell|]
    eqn:Hcell.
  2: { intros [= <-]. by rewrite Hid, Hcell. }
  intros [= <-]. simpl. rewrite Hid.
  rewrite list_lookup_insert_eq by (by eapply lookup_lt_Some).
  simpl. rewrite classList_add_idemp, list_insert_insert_eq. done.
Qed.

Lemma highlightNode_twice_witness :
  Page.highlightNode [[GStr "A"; GStr "B"]] "B" "visited"
    (Page.set_cells
       [mkCell ["cell"; "node"; "start"] (Some "A");
        mkCell ["cell"; "node"; "goal"; "visited"] (Some "B")]
       (Page.createMaze [[GStr "A"; GStr "B"]] Page.initial)) =
  Normal
    (Page.set_cells
       [mkCell ["cell"; "node"; "start"] (Some "A");
        mkCell ["cell"; "node"; "goal"; "visited"] (Some "B")]
       (Page.createMaze [[GStr "A"; GStr "B"]] Page.initial)).
Proof.
  apply (highlightNode_twice [[GStr "A"; GStr "B"]] "B" "visited"
           (Page.createMaze [[GStr "A"; GStr "B"]] Page.initial)).
  vm_compute. reflexivity.
Defined.

(** ** The narration is longer than the animation *)

Lemma BFS_body_lines mazeGraph i node st :
  (length (algorithmSteps (BFS.out st)) + (if (0 <? i)%nat then 1 else 0)
   ≤ length (algorithmSteps (BFS.out (BFS.body mazeGraph i node st))))%nat.
Proof.
  unfold BFS.body, BFS.expand, BFS.dequeue.
  repeat case_match; simpl; rewrite ?length_app; simpl; lia.
Qed.

Lemma DFS_body_lines mazeGraph i node st :
  (length (algorithmSteps (DFS.out st)) + (if (0 <? i)%nat then 1 else 0)
   ≤ length (algorithmSteps (DFS.out (DFS.body mazeGraph i node st))))%nat.
Proof.
  unfold DFS.body, DFS.expand, DFS.pop.
  repeat case_match; simpl; rewrite ?length_app; simpl; lia.
Qed.

Lemma AStar_remove_lines i node st :
  (length (algorithmSteps (AStar.out st)) + (if (0 <? i)%nat then 1 else 0)
   ≤ length (algorithmSteps (AStar.out (AStar.remove i node st))))%nat.
Proof.
  unfold AStar.remove. case_match; simpl; rewrite ?length_app; simpl; lia.
Qed.

Lemma AStar_relax_all_lines heuristic adj currentG ns st :
  (length (algorithmSteps (AStar.out st))
   ≤ length
       (algorithmSteps
          (AStar.out (foldl (AStar.relax heuristic adj currentG) st ns))))%nat.
Proof.
  revert st. induction ns as [|n ns IH]; intros st; simpl; [done|].
  etrans; [|apply IH]. unfold AStar.relax.
  case_match; simpl; rewrite ?length_app; simpl; lia.
Qed.

Lemma AStar_evaluate_lines mazeGraph heuristic currentG node st :
  (length (algorithmSteps (AStar.out st))
   ≤ length
       (algorithmSteps
          (AStar.out (AStar.evaluate mazeGraph heuristic currentG node st))))%nat.
Proof.
  unfold AStar.evaluate. case_match; simpl; [|done].
  etrans; [|apply AStar_relax_all_lines]. simpl. rewrite length_app. lia.
Qed.

Lemma through_goal_cons node rest :
  length (through_goal (node :: rest)) =
    if decide (node = "B") then 1%nat else S (length (through_goal rest)).
Proof. simpl. by case_decide. Qed.

Lemma BFS_loop_lines mazeGraph explored i st :
  (0 < i ∨ 0 < length (algorithmSteps (BFS.out st)))%nat →
  (length (algorithmSteps (BFS.out st)) + (if (0 <? i)%nat then 1 else 0)
     + length (through_goal explored) + reaches_goal explored
   ≤ length (algorithmSteps (BFS.out (BFS.loop mazeGraph i explored st))) + 1)%nat.
Proof.
  revert i st. induction explored as [|node rest IH]; intros i st Hi.
  { simpl. unfold reaches_goal.
    rewrite decide_False by apply not_elem_of_nil.
    destruct i; simpl; lia. }
  pose proof (BFS_body_lines mazeGraph i node st) as Hb.
  rewrite reaches_goal_cons, through_goal_cons.
  cbn [BFS.loop]. destruct (decide (node = "B")) as [->|Hne].
  - simpl. rewrite length_app. simpl.
    destruct i; simpl in *; lia.
  - specialize (IH (S i) (BFS.body mazeGraph i node st)). simpl in IH.
    destruct i; simpl in *; lia.
Qed.

Lemma DFS_loop_lines mazeGraph explored i st :
  (0 < i ∨ 0 < length (algorithmSteps (DFS.out st)))%nat →
  (length (algorithmSteps (DFS.out st)) + (if (0 <? i)%nat then 1 else 0)
     + length (through_goal explored) + reaches_goal explored
   ≤ length (algorithmSteps (DFS.out (DFS.loop mazeGraph i explored st))) + 1)%nat.
Proof.
  revert i st. induction explored as [|node rest IH]; intros i st Hi.
  { simpl. unfold reaches_goal.
    rewrite decide_False by apply not_elem_of_nil.
    destruct i; simpl; lia. }
  pose proof (DFS_body_lines mazeGraph i node st) as Hb.
  rewrite reaches_goal_cons, through_goal_cons.
  cbn [DFS.loop]. destruct (decide (node = "B")) as [->|Hne].
  - simpl. rewrite length_app. simpl.
    destruct i; simpl in *; lia.
  - specialize (IH (S i) (DFS.body mazeGraph i node st)). simpl in IH.
    destruct i; simpl in *; lia.
Qed.

Lemma AStar_loop_lines mazeGraph heuristic explored i st :
  (0 < i ∨ 0 < length (algorithmSteps (AStar.out st)))%nat →
  (length (algorithmSteps (AStar.out st)) + (if (0 <? i)%nat then 1 else 0)
     + length (through_goal explored) + reaches_goal explored
   ≤ length
       (algorithmSteps
          (AStar.out (AStar.loop mazeGraph heuristic i explored st))) + 1)%nat.
Proof.
  revert i st. induction explored as [|node rest IH]; intros i st Hi.
  { simpl. unfold reaches_goal.
    rewrite decide_False by apply not_elem_of_nil.
    destruct i; simpl; lia. }
  pose proof (AStar_remove_lines i node st) as Hb.
  rewrite reaches_goal_cons, through_goal_cons.
  cbn [AStar.loop]. destruct (decide (node = "B")) as [->|Hne].
  - simpl. rewrite length_app. simpl.
    destruct i; simpl in *; lia.
  - pose proof (AStar_evaluate_lines mazeGraph heuristic
                  (default 0 (AStar.gScores st !! node)) node
                  (AStar.remove i node st)) as He.
    specialize (IH (S i)
                  (AStar.evaluate mazeGraph heuristic
                     (default 0 (AStar.gScores st !! node)) node
                     (AStar.remove i node st))).
    simpl in IH. destruct i; simpl in *; lia.
Qed.

Lemma lines_lower_bound mazeGraph heuristic algorithm
    (explored path : list string) :
  algorithm = "bfs" ∨ algorithm = "dfs" ∨ algorithm = "astar" →
  (length (through_goal explored) + reaches_goal explored + 3
   ≤ length
       (algorithmSteps (steps mazeGraph heuristic algorithm explored path)))%nat.
Proof.
  intros [-> | [-> | ->]].
  - rewrite steps_bfs. simpl. rewrite !length_app. simpl.
    pose proof (BFS_loop_lines mazeGraph explored 0 BFS.init) as H.
    simpl in H. lia.
  - rewrite steps_dfs. simpl. rewrite !length_app. simpl.
    pose proof (DFS_loop_lines mazeGraph explored 0 DFS.init) as H.
    simpl in H. lia.
  - rewrite steps_astar. simpl. rewrite !length_app. simpl.
    pose proof (AStar_loop_lines mazeGraph heuristic explored 0
                  (AStar.init heuristic)) as H.
    simpl in H. lia.
Qed.

Lemma last_drop {A} (l : list A) (n : nat) :
  (n < length l)%nat → last (drop n l) = last l.
Proof.
  intros Hn. rewrite <- (take_drop n l) at 2. rewrite last_app.
  destruct (last (drop n l)) as [y|] eqn:Hlast; [done|].
  apply last_None in Hlast. apply (f_equal length) in Hlast.
  rewrite length_drop in Hlast. simpl in Hlast. lia.
Qed.

Lemma steps_last mazeGraph heuristic algorithm (explored path : list string) :
  last (algorithmSteps (steps mazeGraph heuristic algorithm explored path)) =
  Some (TotalExplored (length explored)).
Proof.
  unfold steps, generateAlgorithmSteps.
  repeat case_decide; rewrite summary_Some; simpl;
    first [apply last_snoc | reflexivity].
Qed.

(** X17. Take one of the three algorithm kinds, an explored array that
    ends at the goal at the latest, and a path of fewer than three
    nodes (fewer than four when the goal was reached).  Then the
    narration has more lines than the animation has ticks: at every
    tick the step panel shows a proper beginning of the narration, and
    the last summary line, the count of explored nodes, is never
    shown. *)
Theorem summary_never_shown
    (grid : list (list GridValue)) (mazeGraph : Graph)
    (heuristic : gmap string Z) (algorithm : string)
    (explored path : list string) (n : nat) :
  algorithm = "bfs" ∨ algorithm = "dfs" ∨ algorithm = "astar" →
  through_goal explored = explored →
  (length path < 3 + reaches_goal explored)%nat →
  (n ≤ length explored + length path)%nat →
  ∃ p' hidden,
    exec_all grid (steps mazeGraph heuristic algorithm explored path)
      (concat (take n (schedule explored path)))
      (Page.createMaze grid Page.initial) = Normal p'
    ∧ algorithmSteps (steps mazeGraph heuristic algorithm explored path) =
      take n (algorithmSteps
                (steps mazeGraph heuristic algorithm explored path))
        ++ hidden
    ∧ last hidden = Some (TotalExplored (length explored))
    ∧ Page.stepsContainer p' =
      joined
        (take n
           (algorithmSteps
              (steps mazeGraph heuristic algorithm explored path))).
Proof.
  intros Halg Hstop Hpath Hn.
  pose proof (lines_lower_bound mazeGraph heuristic algorithm explored path
                Halg) as Hbound.
  rewrite Hstop in Hbound.
  destruct (playback_panels grid
              (steps mazeGraph heuristic algorithm explored path)
              explored path n Hn) as (p' & Hexec & _ & Hs & _).
  exists p',
    (drop n (algorithmSteps
               (steps mazeGraph heuristic algorithm explored path))).
  split; [done|]. split; [by rewrite take_drop|]. split; [|done].
  rewrite last_drop by lia. apply steps_last.
Qed.

Lemma summary_never_shown_witness :
  ∃ p' hidden,
    exec_all [[GStr "A"; GNum 0; GStr "B"]]
      (steps graph_ABCD heuristic_ABCD "bfs" ["A"; "B"] ["A"; "B"])
      (concat (take 4 (schedule ["A"; "B"] ["A"; "B"])))
      (Page.createMaze [[GStr "A"; GNum 0; GStr "B"]] Page.initial) = Normal p'
    ∧ algorithmSteps
        (steps graph_ABCD heuristic_ABCD "bfs" ["A"; "B"] ["A"; "B"]) =
      take 4 (algorithmSteps
                (steps graph_ABCD heuristic_ABCD "bfs" ["A"; "B"] ["A"; "B"]))
        ++ hidden
    ∧ last hidden = Some (TotalExplored (length ["A"; "B"]))
    ∧ Page.stepsContainer p' =
      joined
        (take 4
           (algorithmSteps
              (steps graph_ABCD heuristic_ABCD "bfs" ["A"; "B"] ["A"; "B"]))).
Proof.
  apply (summary_never_shown [[GStr "A"; GNum 0; GStr "B"]] graph_ABCD
           heuristic_ABCD "bfs" ["A"; "B"] ["A"; "B"] 4).
  - left. reflexivity.
  - reflexivity.
  - vm_compute. lia.
  - simpl. lia.
Defined.
